(** * simple-cam: a libcamera capture example

    A shallow embedding of [simple-cam.cpp]: the camera naming function, the
    [requestCompleted] slot and the deferred request handler, and [main]
    with its setup, capture and clean-up phases.  The libcamera objects the
    program drives (camera manager, camera, allocator, requests) and the
    event loop are modelled as an explicit world that every call updates;
    what the device and the library answer is read from an environment. *)

From Stdlib Require Import ZArith Ascii String.
From stdpp Require Import base list strings.

Local Open Scope Z_scope.

(** ** Camera naming *)

Module Naming.

(** [properties::Location] is an integer control; libcamera's
    [property_ids.h] gives its three enumerators these values. *)
Definition CameraLocationFront : Z := 0.
Definition CameraLocationBack : Z := 1.
Definition CameraLocationExternal : Z := 2.

(** The two entries of [camera->properties()] the program reads; [props.get]
    yields an optional value. *)
Record ControlList := {
  Location : option Z;
  Model : option string
}.

Record Camera := {
  id : string;
  properties : ControlList
}.

(** [cameraName], lines 133-161.  The [switch] has no [default], so any
    other location value leaves [name] empty. *)
Definition cameraName (camera : Camera) : string :=
  let props := properties camera in
  let name := "" in
  let name :=
    match Location props with
    | Some location =>
        if Z.eqb location CameraLocationFront then "Internal front camera"
        else if Z.eqb location CameraLocationBack then "Internal back camera"
        else if Z.eqb location CameraLocationExternal then
          let name := "External camera" in
          match Model props with
          | Some model => " '" +:+ model +:+ "'"
          | None => name
          end
        else name
    | None => name
    end in
  name +:+ " (" +:+ id camera +:+ ")".

(** [contains p s]: the text [p] occurs somewhere inside [s]. *)
Fixpoint contains (p s : string) : bool :=
  String.prefix p s ||
  match s with
  | EmptyString => false
  | String _ s' => contains p s'
  end.

(** [ends_with s t]: [s] ends with [t]. *)
Definition ends_with (s t : string) : Prop := exists base, s = base +:+ t.

(** [occurs c p]: the character [c] is one of the characters of [p]. *)
Fixpoint occurs (c : ascii) (p : string) : bool :=
  match p with
  | EmptyString => false
  | String x p' => Ascii.eqb x c || occurs c p'
  end.

End Naming.

(** ** The capture session *)

Module Capture.
Import Naming.

Definition EXIT_SUCCESS : Z := 0.
Definition EXIT_FAILURE : Z := 1.
Definition TIMEOUT_SEC : nat := 3.

(** Streams and frame buffers are opaque handles; a [Request *] is the
    address of the request in the heap of the world below. *)
Definition Stream := nat.
Definition FrameBuffer := nat.
Definition RequestPtr := nat.

(** [FrameMetadata]: what the device writes into a buffer it has filled;
    [planes] holds each plane's [bytesused]. *)
Record FrameMetadata := {
  sequence : nat;
  timestamp : nat;
  planes : list nat
}.

(** The metadata [ControlList] of a request: control id and the text of
    its value ([ControlValue::toString]). *)
Definition MetadataList := list (nat * string).

(** Modelled from the spec: the states of a request (section 3); the
    [Request] class is libcamera's, the source names only
    [Request::RequestCancelled]. *)
Inductive Status := Idle | Queued | Completed | RequestCancelled.

(** Modelled from the spec: a request (section 3) has a state, a mapping
    from stream to bound buffer, and metadata present once completed. *)
Record Request := {
  status : Status;
  buffers : list (Stream * FrameBuffer);
  metadata : MetadataList
}.

(** [Request::ReuseFlag]: whether [reuse] keeps the buffers bound. *)
Inductive ReuseFlag := Default | ReuseBuffers.

Definition Status_eqb (a b : Status) : bool :=
  match a, b with
  | Idle, Idle | Queued, Queued | Completed, Completed
  | RequestCancelled, RequestCancelled => true
  | _, _ => false
  end.

(** The request state machine of section 4.1 of the spec, which stands
    for libcamera's [Camera::queueRequest], the device's completion and
    cancellation, and [Request::reuse].  [None] is the spec's
    [InvalidStateError]. *)
Module RequestTracker.

(** Modelled from the spec: [submit] is valid only from Idle and leads to
    Queued. *)
Definition submit (r : Request) : option Request :=
  match status r with
  | Idle => Some {| status := Queued; buffers := buffers r; metadata := metadata r |}
  | _ => None
  end.

(** Modelled from the spec: [onCompleted] is valid only from Queued,
    leads to Completed and stores the metadata. *)
Definition onCompleted (md : MetadataList) (r : Request) : option Request :=
  match status r with
  | Queued => Some {| status := Completed; buffers := buffers r; metadata := md |}
  | _ => None
  end.

(** Modelled from the spec: [onCancelled] is valid only from Queued and
    leads to Cancelled; no metadata is stored. *)
Definition onCancelled (r : Request) : option Request :=
  match status r with
  | Queued => Some {| status := RequestCancelled; buffers := buffers r;
                      metadata := metadata r |}
  | _ => None
  end.

(** Modelled from the spec: [reuse] is valid from Completed or Cancelled,
    clears the metadata, keeps or drops the bound buffers as the policy
    says, and leads to Idle. *)
Definition reuse (flags : ReuseFlag) (r : Request) : option Request :=
  match status r with
  | Completed | RequestCancelled =>
      Some {| status := Idle;
              buffers := match flags with
                         | ReuseBuffers => buffers r
                         | Default => []
                         end;
              metadata := [] |}
  | _ => None
  end.

End RequestTracker.

(** What the program writes to [std::cout] and [std::cerr]: one
    constructor per output statement, carrying the values it prints. *)
Inductive Message :=
| MsgCameraName (name : string)
| MsgNoCameras
| MsgStreamConfig (text : string)
| MsgPixelFormat (text : string)
| MsgSizeRange (text : string)
| MsgSize (text : string)
| MsgDefaultConfig (text : string)
| MsgValidatedConfig (text : string)
| MsgCantAllocate
| MsgAllocated (n : nat)
| MsgCantCreateRequest
| MsgCantSetBuffer
| MsgCaptureRan (sec : nat) (ret : Z)
| MsgRequestCompleted (request : RequestPtr)
| MsgControl (id : nat) (value : string)
| MsgBuffer (seq ts : nat) (bytesused : list nat).

(** The calls the program makes, the slot invocations it receives and its
    output, in program order. *)
Inductive Event :=
| CmStart
| CmStop
| CmGet (cameraId : string)
| CameraAcquire
| CameraGenerateConfiguration
| ConfigValidate
| CameraConfigure
| AllocatorNew
| AllocatorAllocate (s : Stream) (ret : Z)
| AllocatorFree (s : Stream)
| AllocatorDelete
| CameraCreateRequest (result : option RequestPtr)
| RequestAddBuffer (request : RequestPtr) (s : Stream) (b : FrameBuffer) (ret : Z)
| SignalConnect
| CameraStart
| CameraQueueRequest (request : RequestPtr) (ret : Z)
| LoopTimeout (sec : nat)
| LoopExec
| LoopCallLater (request : RequestPtr)
| SlotRequestComplete (request : RequestPtr) (st : Status)
| RequestReuse (request : RequestPtr) (flags : ReuseFlag)
| CameraStop
| CameraRelease
| CameraReset
| Cout (m : Message)
| Cerr (m : Message).

(** The state the calls act on.  [heap] holds the [Request] objects, so
    that the vector [requests], the camera and the deferred calls all
    refer to the same object through its address.  [in_flight] are the
    requests queued to the camera, [calls] the event loop's deferred
    calls: each is [std::bind(&processRequest, request)], kept as its
    [request]. *)
Record World := {
  heap : list Request;
  acquired : bool;
  running : bool;
  allocated : list (Stream * list FrameBuffer);
  frames : list (FrameBuffer * FrameMetadata);
  in_flight : list RequestPtr;
  calls : list RequestPtr;
  trace : list Event
}.

Definition initial : World :=
  {| heap := []; acquired := false; running := false; allocated := [];
     frames := []; in_flight := []; calls := []; trace := [] |}.

Definition set_heap (h : list Request) (w : World) : World :=
  {| heap := h; acquired := acquired w; running := running w;
     allocated := allocated w; frames := frames w; in_flight := in_flight w;
     calls := calls w; trace := trace w |}.

Definition set_acquired (b : bool) (w : World) : World :=
  {| heap := heap w; acquired := b; running := running w;
     allocated := allocated w; frames := frames w; in_flight := in_flight w;
     calls := calls w; trace := trace w |}.

Definition set_running (b : bool) (w : World) : World :=
  {| heap := heap w; acquired := acquired w; running := b;
     allocated := allocated w; frames := frames w; in_flight := in_flight w;
     calls := calls w; trace := trace w |}.

Definition set_allocated (a : list (Stream * list FrameBuffer)) (w : World) : World :=
  {| heap := heap w; acquired := acquired w; running := running w;
     allocated := a; frames := frames w; in_flight := in_flight w;
     calls := calls w; trace := trace w |}.

Definition set_frames (f : list (FrameBuffer * FrameMetadata)) (w : World) : World :=
  {| heap := heap w; acquired := acquired w; running := running w;
     allocated := allocated w; frames := f; in_flight := in_flight w;
     calls := calls w; trace := trace w |}.

Definition set_in_flight (q : list RequestPtr) (w : World) : World :=
  {| heap := heap w; acquired := acquired w; running := running w;
     allocated := allocated w; frames := frames w; in_flight := q;
     calls := calls w; trace := trace w |}.

Definition set_calls (c : list RequestPtr) (w : World) : World :=
  {| heap := heap w; acquired := acquired w; running := running w;
     allocated := allocated w; frames := frames w; in_flight := in_flight w;
     calls := c; trace := trace w |}.

Definition set_trace (t : list Event) (w : World) : World :=
  {| heap := heap w; acquired := acquired w; running := running w;
     allocated := allocated w; frames := frames w; in_flight := in_flight w;
     calls := calls w; trace := t |}.

(** *** A state monad over the world *)

Definition M (A : Type) : Type := World -> A * World.

Definition value {A} (a : A) : M A := fun w => (a, w).

Definition bind {A B} (c : M A) (k : A -> M B) : M B :=
  fun w => k (fst (c w)) (snd (c w)).

Notation "x <- c ;; k" := (bind c (fun x => k))
  (at level 20, c at level 99, k at level 200, only parsing).
Notation "c >> k" := (bind c (fun _ => k))
  (at level 100, k at level 200, only parsing, right associativity).

Definition emit (e : Event) : M unit :=
  fun w => (tt, set_trace (trace w ++ [e]) w).

Definition cout (m : Message) : M unit := emit (Cout m).
Definition cerr (m : Message) : M unit := emit (Cerr m).

(** A range-based [for] whose body neither returns nor breaks. *)
Fixpoint for_each {A} (l : list A) (body : A -> M unit) : M unit :=
  match l with
  | [] => value tt
  | x :: l' => body x >> for_each l' body
  end.

Definition modify (f : World -> World) : M unit := fun w => (tt, f w).
Definition get {A} (f : World -> A) : M A := fun w => (f w, w).

Arguments value {A} a w /.
Arguments bind {A B} c k w /.
Arguments emit e w /.
Arguments modify f w /.
Arguments get {A} f w /.

(** *** The environment: what libcamera and the device answer *)

Record StreamConfiguration := {
  stream : Stream;
  defaultText : string;
  validatedText : string;
  formats : list (string * string * list string)
}.

(** What happens while [loop.exec()] runs: the device completes or cancels
    a request (on the camera manager's thread), the loop takes a turn and
    runs its oldest deferred call, or a stop of the loop with a code is
    requested.  The end of the script is the timeout elapsing. *)
Inductive LoopEvent :=
| DeviceCompletes (request : RequestPtr) (md : MetadataList) (fm : FrameMetadata)
| DeviceCancels (request : RequestPtr)
| Dispatch
| Exit (code : Z).

Record Env := {
  cameras : list Camera;
  configuration : StreamConfiguration * list StreamConfiguration;
  allocate : Stream -> Z;
  exported : Stream -> list FrameBuffer;
  createRequest : nat -> bool;
  addBuffer : RequestPtr -> Stream -> FrameBuffer -> Z;
  script : list LoopEvent
}.

(** *** libcamera calls

    The library has no source here.  Each call records itself in the trace
    and does what sections 3 and 4 of the spec say of it; what the device
    decides is read from the environment.  Calls whose result the program
    ignores ([acquire], [configure], [start], [stop], [release]) are taken
    to succeed. *)

Definition EINVAL : Z := 22.

(** Modelled from the spec: [camera->acquire()] takes the device for the
    session. *)
Definition camera_acquire : M unit :=
  emit CameraAcquire >> modify (set_acquired true).

(** Modelled from the spec: [camera->release()] gives the device back. *)
Definition camera_release : M unit :=
  emit CameraRelease >> modify (set_acquired false).

(** Modelled from the spec: [camera->start()]; requests may be submitted
    from now on. *)
Definition camera_start : M unit :=
  emit CameraStart >> modify (set_running true).

(** Modelled from the spec: [camera->stop()]. *)
Definition camera_stop : M unit :=
  emit CameraStop >> modify (set_running false).

Fixpoint lookup_stream {A} (s : Stream) (l : list (Stream * A)) : option A :=
  match l with
  | [] => None
  | (s', a) :: l' => if Nat.eqb s' s then Some a else lookup_stream s l'
  end.

Fixpoint remove_stream {A} (s : Stream) (l : list (Stream * A)) : list (Stream * A) :=
  match l with
  | [] => []
  | (s', a) :: l' =>
      if Nat.eqb s' s then remove_stream s l' else (s', a) :: remove_stream s l'
  end.

(** Modelled from the spec: [allocator->allocate(stream)] binds the
    buffers the device exports to the stream; a negative result allocates
    nothing. *)
Definition allocator_allocate (env : Env) (s : Stream) : M Z :=
  let ret := allocate env s in
  emit (AllocatorAllocate s ret) >>
  (if Z.ltb ret 0 then value tt
   else modify (fun w => set_allocated ((s, exported env s) :: allocated w) w)) >>
  value ret.

(** Modelled from the spec: [allocator->buffers(stream)], the buffers of
    the stream in order; none for a stream without buffers. *)
Definition allocator_buffers (s : Stream) : M (list FrameBuffer) :=
  get (fun w => default [] (lookup_stream s (allocated w))).

(** Modelled from the spec: [allocator->free(stream)]. *)
Definition allocator_free (s : Stream) : M unit :=
  emit (AllocatorFree s) >>
  modify (fun w => set_allocated (remove_stream s (allocated w)) w).

(** Modelled from the spec: a request is created Idle, with no buffer and
    no metadata. *)
Definition new_request : Request :=
  {| status := Idle; buffers := []; metadata := [] |}.

(** Modelled from the spec: [camera->createRequest()] yields a fresh
    request at the next address, or a null pointer. *)
Definition camera_createRequest (env : Env) : M (option RequestPtr) :=
  n <- get (fun w => length (heap w)) ;;
  if createRequest env n then
    emit (CameraCreateRequest (Some n)) >>
    modify (fun w => set_heap (heap w ++ [new_request]) w) >>
    value (Some n)
  else
    emit (CameraCreateRequest None) >> value None.

(** Modelled from the spec: the buffer map has one entry per stream. *)
Definition bind_buffer (s : Stream) (b : FrameBuffer) (r : Request) : Request :=
  {| status := status r;
     buffers := remove_stream s (buffers r) ++ [(s, b)];
     metadata := metadata r |}.

(** Modelled from the spec: [request->addBuffer(stream, buffer)]; a
    negative result binds nothing. *)
Definition request_addBuffer (env : Env) (request : RequestPtr) (s : Stream)
    (b : FrameBuffer) : M Z :=
  let ret := addBuffer env request s b in
  emit (RequestAddBuffer request s b ret) >>
  (if Z.ltb ret 0 then value tt
   else modify (fun w => set_heap (alter (bind_buffer s b) request (heap w)) w)) >>
  value ret.

(** [transition f request w]: the heap after the state machine step [f]
    on [request], if the step is valid there. *)
Definition transition (f : Request -> option Request) (request : RequestPtr)
    (w : World) : option (list Request) :=
  match heap w !! request with
  | Some r =>
      match f r with
      | Some r' => Some (<[request := r']> (heap w))
      | None => None
      end
  | None => None
  end.

(** Modelled from the spec: [camera->queueRequest(request)] is [submit],
    on a camera that has been started; it returns 0, or a negative error
    code and changes nothing. *)
Definition camera_queueRequest (request : RequestPtr) : M Z :=
  fun w =>
    match (if running w then transition RequestTracker.submit request w else None) with
    | Some h =>
        (0, set_trace (trace w ++ [CameraQueueRequest request 0])
              (set_in_flight (in_flight w ++ [request]) (set_heap h w)))
    | None =>
        (- EINVAL, set_trace (trace w ++ [CameraQueueRequest request (- EINVAL)]) w)
    end.

(** Modelled from the spec: [request->reuse(flags)] is [reuse]; the call
    returns nothing, and on a request that is neither completed nor
    cancelled it leaves the request as it is. *)
Definition request_reuse (request : RequestPtr) (flags : ReuseFlag) : M unit :=
  emit (RequestReuse request flags) >>
  modify (fun w =>
            match transition (RequestTracker.reuse flags) request w with
            | Some h => set_heap h w
            | None => w
            end).

(** [request->metadata()]. *)
Definition request_metadata (request : RequestPtr) : M MetadataList :=
  get (fun w => match heap w !! request with
                | Some r => metadata r
                | None => []
                end).

(** [request->buffers()]. *)
Definition request_buffers (request : RequestPtr)
    : M (list (Stream * FrameBuffer)) :=
  get (fun w => match heap w !! request with
                | Some r => buffers r
                | None => []
                end).

Definition no_frame : FrameMetadata :=
  {| sequence := 0; timestamp := 0; planes := [] |}.

(** [buffer->metadata()]: what the device last wrote for the buffer. *)
Definition buffer_metadata (b : FrameBuffer) : M FrameMetadata :=
  get (fun w => default no_frame (lookup_stream b (frames w))).

(** *** The event loop

    [event_loop.h] and its implementation are not among the sources. *)

(** Modelled from the spec: [loop.callLater] (section 4.3, [postLater])
    appends the call to the deferred calls. *)
Definition loop_callLater (request : RequestPtr) : M unit :=
  emit (LoopCallLater request) >>
  modify (fun w => set_calls (calls w ++ [request]) w).

(** Modelled from the spec: [loop.timeout] (section 4.3, [setTimeout])
    arms the deadline that ends [exec]. *)
Definition loop_timeout (sec : nat) : M unit := emit (LoopTimeout sec).

(** *** The program *)

(** [requestComplete], lines 39-45: the slot connected to
    [Camera::requestCompleted].  (A pointer that names no request is never
    delivered; the model does nothing there.) *)
Definition requestComplete (request : RequestPtr) : M unit :=
  fun w =>
    match heap w !! request with
    | Some r =>
        (emit (SlotRequestComplete request (status r)) >>
         if Status_eqb (status r) RequestCancelled then value tt
         else loop_callLater request) w
    | None => (tt, w)
    end.

(** [processRequest], lines 47-114.  The loop over the planes of a buffer
    prints each plane's [bytesused]; the message carries them all. *)
Definition processRequest (request : RequestPtr) : M unit :=
  cout (MsgRequestCompleted request) >>
  requestMetadata <- request_metadata request ;;
  for_each requestMetadata
    (fun ctrl => cout (MsgControl (fst ctrl) (snd ctrl))) >>
  buffers <- request_buffers request ;;
  for_each buffers
    (fun bufferPair =>
       let buffer := snd bufferPair in
       metadata <- buffer_metadata buffer ;;
       cout (MsgBuffer (sequence metadata) (timestamp metadata) (planes metadata))) >>
  (* Re-queue the Request to the camera. *)
  request_reuse request ReuseBuffers >>
  camera_queueRequest request >>
  value tt.

(** Modelled from the spec: the device side of a completion
    ([onCompleted]): the request leaves the camera's queue, completed and
    with its metadata, and its buffers carry the frame metadata.  The
    result tells whether the signal is raised: the device completes only
    what is in flight, an entry naming anything else is void. *)
Definition device_complete (request : RequestPtr) (md : MetadataList)
    (fm : FrameMetadata) : M bool :=
  fun w =>
    match transition (RequestTracker.onCompleted md) request w,
          heap w !! request with
    | Some h, Some r =>
        (true,
         set_frames (map (fun sb => (snd sb, fm)) (buffers r) ++ frames w)
           (set_in_flight (filter (fun x => x <> request) (in_flight w))
              (set_heap h w)))
    | _, _ => (false, w)
    end.

(** Modelled from the spec: the device side of a cancellation
    ([onCancelled]). *)
Definition device_cancel (request : RequestPtr) : M bool :=
  fun w =>
    match transition RequestTracker.onCancelled request w with
    | Some h =>
        (true,
         set_in_flight (filter (fun x => x <> request) (in_flight w))
           (set_heap h w))
    | None => (false, w)
    end.

(** Modelled from the spec: a turn of the loop (section 4.3): the oldest
    deferred call, if any, is taken off the queue and run. *)
Definition loop_dispatch : M unit :=
  fun w =>
    match calls w with
    | [] => (tt, w)
    | request :: rest => processRequest request (set_calls rest w)
    end.

(** Modelled from the spec: the body of [loop.exec()] (section 4.3,
    [run]): it returns 0 when the timeout stops it and the requested code
    otherwise, whatever work is still pending.  A completion or
    cancellation raises [Camera::requestCompleted], which invokes the
    connected slot. *)
Fixpoint loop_run (events : list LoopEvent) : M Z :=
  match events with
  | [] => value 0
  | Exit code :: _ => value code
  | Dispatch :: rest => loop_dispatch >> loop_run rest
  | DeviceCompletes request md fm :: rest =>
      signalled <- device_complete request md fm ;;
      (if signalled then requestComplete request else value tt) >>
      loop_run rest
  | DeviceCancels request :: rest =>
      signalled <- device_cancel request ;;
      (if signalled then requestComplete request else value tt) >>
      loop_run rest
  end.

(** Modelled from the spec: [loop.exec()]. *)
Definition loop_exec (env : Env) : M Z :=
  emit LoopExec >> loop_run (script env).

(** The allocation loop, lines 367-378; [Some code] when its body
    returns from [main]. *)
Fixpoint allocate_buffers (env : Env) (config : list StreamConfiguration)
    : M (option Z) :=
  match config with
  | [] => value None
  | cfg :: config' =>
      ret <- allocator_allocate env (stream cfg) ;;
      if Z.ltb ret 0 then
        cerr MsgCantAllocate >> value (Some EXIT_FAILURE)
      else
        bufs <- allocator_buffers (stream cfg) ;;
        let allocated := length bufs in
        cout (MsgAllocated allocated) >>
        allocate_buffers env config'
  end.

(** The request loop, lines 401-426, from index [i] on: [todo] are
    [buffers[i]], [buffers[i+1]], ...; the result is the vector [requests],
    or the code its body returns from [main]. *)
Fixpoint create_requests (env : Env) (stream : Stream)
    (todo : list FrameBuffer) (requests : list RequestPtr)
    : M (list RequestPtr + Z) :=
  match todo with
  | [] => value (inl requests)
  | buffer :: todo' =>
      request <- camera_createRequest env ;;
      match request with
      | None => cerr MsgCantCreateRequest >> value (inr EXIT_FAILURE)
      | Some request =>
          ret <- request_addBuffer env request stream buffer ;;
          if Z.ltb ret 0 then
            cerr MsgCantSetBuffer >> value (inr EXIT_FAILURE)
          else
            create_requests env stream todo' (requests ++ [request])
      end
  end.

(** Lines 278-297: the configuration and its formats are printed. *)
Definition print_configuration (config : list StreamConfiguration) : M unit :=
  for_each config
    (fun cfg =>
       cout (MsgStreamConfig (defaultText cfg)) >>
       for_each (formats cfg)
         (fun pfmt =>
            cout (MsgPixelFormat (fst (fst pfmt))) >>
            cout (MsgSizeRange (snd (fst pfmt))) >>
            for_each (snd pfmt) (fun size => cout (MsgSize size)))).

(** Lines 460-462: the camera is started and every request queued. *)
Definition start_capture (requests : list RequestPtr) : M unit :=
  camera_start >>
  for_each requests (fun request => camera_queueRequest request >> value tt).

(** Lines 483-488. *)
Definition clean_up (stream : Stream) : M unit :=
  camera_stop >>
  allocator_free stream >>
  emit AllocatorDelete >>
  camera_release >>
  emit CameraReset >>
  emit CmStop.

(** Lines 460-490: start, run the loop, clean up. *)
Definition capture (env : Env) (stream : Stream) (requests : list RequestPtr)
    : M Z :=
  start_capture requests >>
  loop_timeout TIMEOUT_SEC >>
  ret <- loop_exec env ;;
  cout (MsgCaptureRan TIMEOUT_SEC ret) >>
  clean_up stream >>
  value EXIT_SUCCESS.

(** Lines 223-365: the first camera is fetched by its id, acquired and
    configured for the role [Raw], and the allocator is made. *)
Definition configure (env : Env) (first : Camera) : M unit :=
  let cameraId := id first in
  emit (CmGet cameraId) >>
  camera_acquire >>
  emit CameraGenerateConfiguration >>
  let config := fst (configuration env) :: snd (configuration env) in
  let streamConfig := fst (configuration env) in
  print_configuration config >>
  cout (MsgDefaultConfig (defaultText streamConfig)) >>
  emit ConfigValidate >>
  cout (MsgValidatedConfig (validatedText streamConfig)) >>
  emit CameraConfigure >>
  emit AllocatorNew.

(** [main], lines 163-491; [session] is its part from line 223 on, with
    the first camera at hand. *)
Definition session (env : Env) (first : Camera) : M Z :=
  configure env first >>
  let config := fst (configuration env) :: snd (configuration env) in
  let streamConfig := fst (configuration env) in
  returned <- allocate_buffers env config ;;
  match returned with
  | Some code => value code
  | None =>
      let stream := stream streamConfig in
      buffers <- allocator_buffers stream ;;
      built <- create_requests env stream buffers [] ;;
      match built with
      | inr code => value code
      | inl requests =>
          emit SignalConnect >>
          capture env stream requests
      end
  end.

Definition main_body (env : Env) : M Z :=
  emit CmStart >>
  for_each (cameras env)
    (fun camera => cout (MsgCameraName (cameraName camera))) >>
  match cameras env with
  | [] =>
      cout MsgNoCameras >>
      emit CmStop >>
      value EXIT_FAILURE
  | first :: _ => session env first
  end.

(** The process: [main] run from the initial world; its exit status and
    the world it leaves. *)
Definition main (env : Env) : Z * World := main_body env initial.

(** The world in which [main] turns to its first camera. *)
Definition listed (env : Env) : World :=
  set_trace (CmStart :: map (fun c => Cout (MsgCameraName (cameraName c)))
                          (cameras env)) initial.

(** *** Reading a trace *)

(** The calls that start capturing: starting the camera, queueing a
    request, running the loop. *)
Definition starting (e : Event) : bool :=
  match e with
  | CameraStart | CameraQueueRequest _ _ | LoopExec => true
  | _ => false
  end.

(** The set-up calls that failed: an allocation with a negative result, a
    null request, a binding with a negative result. *)
Definition failing (e : Event) : bool :=
  match e with
  | AllocatorAllocate _ ret => Z.ltb ret 0
  | CameraCreateRequest None => true
  | RequestAddBuffer _ _ _ ret => Z.ltb ret 0
  | _ => false
  end.

Definition quiet (e : Event) : Prop := starting e = false /\ failing e = false.

Definition unfailing (e : Event) : Prop := failing e = false.

(** The invocations of the slot a trace records: the request and the
    state the slot found it in. *)
Definition notified (t : list Event) : list (RequestPtr * Status) :=
  omap (fun e => match e with
                 | SlotRequestComplete r st => Some (r, st)
                 | _ => None
                 end) t.

(** The notification [Camera::requestCompleted] delivers for [request] in
    the world [w]: the request and the state it is in at that moment. *)
Definition delivery (request : RequestPtr) (w : World)
    : list (RequestPtr * Status) :=
  match heap w !! request with
  | Some r => [(request, status r)]
  | None => []
  end.

(** Modelled from the spec: the notifications the device raises while the
    loop runs [events] from the world [w], in their order of arrival.
    This is the device's side of [loop_run]: a notification is counted
    when the signal is raised, whatever the connected slot does with
    it. *)
Fixpoint raised (events : list LoopEvent) (w : World)
    : list (RequestPtr * Status) :=
  match events with
  | [] => []
  | Exit _ :: _ => []
  | Dispatch :: rest => raised rest (snd (loop_dispatch w))
  | DeviceCompletes request md fm :: rest =>
      let w1 := snd (device_complete request md fm w) in
      if fst (device_complete request md fm w) then
        delivery request w1 ++ raised rest (snd (requestComplete request w1))
      else raised rest w1
  | DeviceCancels request :: rest =>
      let w1 := snd (device_cancel request w) in
      if fst (device_cancel request w) then
        delivery request w1 ++ raised rest (snd (requestComplete request w1))
      else raised rest w1
  end.

(** The requests of the notifications that were not delivered in the
    cancelled state, in order. *)
Definition uncancelled (l : list (RequestPtr * Status)) : list RequestPtr :=
  omap (fun n => if Status_eqb (snd n) RequestCancelled then None
                 else Some (fst n)) l.

(** The requests [processRequest] was invoked for: each invocation begins
    with its "Request completed" line. *)
Definition handled (t : list Event) : list RequestPtr :=
  omap (fun e => match e with
                 | Cout (MsgRequestCompleted r) => Some r
                 | _ => None
                 end) t.

(** The request a turn of the request loop builds for [buffer]. *)
Definition built (s : Stream) (buffer : FrameBuffer) : Request :=
  {| status := Idle; buffers := [(s, buffer)]; metadata := [] |}.

(** What makes the set-up fail when [n] requests exist: an allocation for
    a configured stream is refused, or, for some buffer of the first
    stream, no request is created or the buffer cannot be bound. *)
Definition setup_failure (env : Env) (n : nat) : Prop :=
  let config := fst (configuration env) :: snd (configuration env) in
  let s := stream (fst (configuration env)) in
  (exists cfg, In cfg config /\ allocate env (stream cfg) < 0) \/
  (exists i b, exported env s !! i = Some b /\
     (createRequest env (n + i)%nat = false \/ addBuffer env (n + i)%nat s b < 0)).

(** *** Relations between worlds *)

(** A computation respects a relation [R] on worlds when it only moves
    the world along [R]. *)
Definition respects (R : World -> World -> Prop) {A} (c : M A) : Prop :=
  forall w, R w (snd (c w)).

(** [extends P w w']: [w'] has the trace of [w] followed by events that
    all satisfy [P]. *)
Definition extends (P : Event -> Prop) (w w' : World) : Prop :=
  exists t, trace w' = trace w ++ t /\ Forall P t.

(** [same_but_trace w w']: nothing but the trace differs. *)
Definition same_but_trace (w w' : World) : Prop :=
  w' = set_trace (trace w') w.

(** [output P]: the step only adds events satisfying [P] to the trace. *)
Definition output (P : Event -> Prop) (w w' : World) : Prop :=
  extends P w w' /\ same_but_trace w w'.

(** [calm w w']: the camera is as it was: not started or stopped, not
    acquired or released, nothing queued, nothing deferred. *)
Definition calm (w w' : World) : Prop :=
  acquired w' = acquired w /\ running w' = running w /\
  in_flight w' = in_flight w /\ calls w' = calls w.

(** An event that is neither a slot invocation nor the first line of
    [processRequest]. *)
Definition silent (e : Event) : Prop :=
  match e with
  | SlotRequestComplete _ _ | Cout (MsgRequestCompleted _) => False
  | _ => True
  end.

(** [steady w w']: no notification, no handling, and the deferred calls
    are as they were. *)
Definition steady (w w' : World) : Prop :=
  extends silent w w' /\ calls w' = calls w.

(** The turns the loop takes among [events]. *)
Fixpoint turns (events : list LoopEvent) : nat :=
  match events with
  | [] => 0
  | Dispatch :: rest => S (turns rest)
  | _ :: rest => turns rest
  end.

(** No stop of the loop is requested among [events]. *)
Fixpoint unstopped (events : list LoopEvent) : bool :=
  match events with
  | [] => true
  | Exit _ :: _ => false
  | _ :: rest => unstopped rest
  end.

(** [spares request e]: the event is no call on [request], and neither
    the slot nor the handler invoked for it. *)
Definition spares (request : RequestPtr) (e : Event) : Prop :=
  match e with
  | RequestAddBuffer r _ _ _ | CameraQueueRequest r _ | LoopCallLater r
  | SlotRequestComplete r _ | RequestReuse r _
  | Cout (MsgRequestCompleted r) => r <> request
  | _ => True
  end.

(** The line [processRequest] prints for a buffer. *)
Definition frame_line (fm : FrameMetadata) : Event :=
  Cout (MsgBuffer (sequence fm) (timestamp fm) (planes fm)).

(** [keeps_buffers w w']: every request has the buffers it had. *)
Definition keeps_buffers (w w' : World) : Prop :=
  map buffers (heap w') = map buffers (heap w).

End Capture.

(** ** Sample cameras and environments *)

Module Samples.
Import Naming Capture.

Definition external_pro : Camera :=
  {| id := "usb-2";
     properties := {| Location := Some CameraLocationExternal;
                      Model := Some "External camera Pro" |} |}.

Definition nameless : Camera :=
  {| id := "platform/cam1";
     properties := {| Location := None; Model := Some "unused" |} |}.

Definition raw : StreamConfiguration :=
  {| stream := 0%nat; defaultText := "800x600-SRGGB10";
     validatedText := "640x480-SRGGB10";
     formats := [("SRGGB10", "(640x480)-(800x600)", ["640x480"; "800x600"])] |}.

Definition frame : FrameMetadata :=
  {| sequence := 7%nat; timestamp := 99%nat; planes := [100%nat; 200%nat] |}.

(** One camera, one stream, two buffers, everything succeeds; what
    happens during the loop is left to the caller. *)
Definition env_of (events : list LoopEvent) : Env :=
  {| cameras := [external_pro];
     configuration := (raw, []);
     allocate := fun _ => 2;
     exported := fun _ => [10%nat; 11%nat];
     createRequest := fun _ => true;
     addBuffer := fun _ _ _ => 0;
     script := events |}.

(** No camera is found. *)
Definition env_no_camera : Env :=
  {| cameras := [];
     configuration := (raw, []);
     allocate := fun _ => 2;
     exported := fun _ => [10%nat; 11%nat];
     createRequest := fun _ => true;
     addBuffer := fun _ _ _ => 0;
     script := [] |}.

(** The allocator has no memory ([-ENOMEM]). *)
Definition env_no_memory : Env :=
  {| cameras := [external_pro];
     configuration := (raw, []);
     allocate := fun _ => -12;
     exported := fun _ => [];
     createRequest := fun _ => true;
     addBuffer := fun _ _ _ => 0;
     script := [] |}.

(** The camera hands out one request and then none. *)
Definition env_no_request : Env :=
  {| cameras := [external_pro];
     configuration := (raw, []);
     allocate := fun _ => 2;
     exported := fun _ => [10%nat; 11%nat];
     createRequest := fun n => Nat.eqb n 0;
     addBuffer := fun _ _ _ => 0;
     script := [] |}.

(** The first buffer cannot be bound ([-EINVAL]). *)
Definition env_no_binding : Env :=
  {| cameras := [external_pro];
     configuration := (raw, []);
     allocate := fun _ => 2;
     exported := fun _ => [10%nat; 11%nat];
     createRequest := fun _ => true;
     addBuffer := fun _ _ _ => -22;
     script := [] |}.

(** A world in which request 0 is in flight on a running camera, and one
    in which the device has cancelled it. *)
Definition world_in_flight : World :=
  {| heap := [{| status := Queued; buffers := [(0%nat, 10%nat)]; metadata := [] |}];
     acquired := true; running := true;
     allocated := [(0%nat, [10%nat])]; frames := [];
     in_flight := [0%nat]; calls := []; trace := [] |}.

Definition world_cancelled : World :=
  {| heap := [{| status := RequestCancelled; buffers := [(0%nat, 10%nat)];
                 metadata := [] |}];
     acquired := true; running := true;
     allocated := [(0%nat, [10%nat])]; frames := [];
     in_flight := []; calls := []; trace := [] |}.

(** Four requests in flight on a running camera, one buffer each. *)
Definition world_four_in_flight : World :=
  {| heap := map (fun b => {| status := Queued; buffers := [(0%nat, b)];
                              metadata := [] |})
                 [10%nat; 11%nat; 12%nat; 13%nat];
     acquired := true; running := true;
     allocated := [(0%nat, [10%nat; 11%nat; 12%nat; 13%nat])]; frames := [];
     in_flight := [0%nat; 1%nat; 2%nat; 3%nat]; calls := []; trace := [] |}.

(** Request 0 was cancelled by the device, request 1 is in flight. *)
Definition world_one_cancelled : World :=
  {| heap := [{| status := RequestCancelled; buffers := [(0%nat, 10%nat)];
                 metadata := [] |};
              {| status := Queued; buffers := [(0%nat, 11%nat)]; metadata := [] |}];
     acquired := true; running := true;
     allocated := [(0%nat, [10%nat; 11%nat])]; frames := [];
     in_flight := [1%nat]; calls := []; trace := [] |}.

End Samples.

(** ** Statements the code does not meet, as predicates *)

Module Claims.
Import Naming Capture.

(** An external camera's name shows the quoted model and nowhere the text
    of the base name. *)
Definition drops_base_text (camera : Camera) (model : string) : Prop :=
  contains (" '" +:+ model +:+ "'") (cameraName camera) = true /\
  contains "External camera" (cameraName camera) = false.

(** A cancelled request delivered to the slot is deferred to the loop. *)
Definition enqueues_cancelled (w : World) (request : RequestPtr) : Prop :=
  forall r, heap w !! request = Some r -> status r = RequestCancelled ->
    In request (calls (snd (requestComplete request w))).

(** The exit status of the process is what [loop.exec()] returned. *)
Definition returns_loop_status (env : Env) : Prop :=
  In LoopExec (trace (snd (main env))) ->
  forall w, fst (main env) = fst (loop_exec env w).

(** Every notification the device raises is handled, in order of arrival,
    once the loop has run all its deferred calls. *)
Definition handles_every_notification (events : list LoopEvent) (w : World) : Prop :=
  let w' := snd (loop_run events w) in
  calls w' = [] ->
  handled (trace w') = handled (trace w) ++ calls w ++ map fst (raised events w).

(** The program does not return while the camera is acquired. *)
Definition releases_camera (env : Env) : Prop :=
  acquired (snd (main env)) = false.

End Claims.
(** ** Further notions *)

Module Further.
Import Naming Capture.

(** The camera [camera] with its Model property replaced. *)
Definition with_model (model : option string) (camera : Camera) : Camera :=
  {| id := id camera;
     properties := {| Location := Location (properties camera); Model := model |} |}.

(** The lines [processRequest] prints for the request [r] in the world
    [w], before it reuses and queues the request. *)
Definition printed (w : World) (request : RequestPtr) (r : Request) : list Event :=
  [Cout (MsgRequestCompleted request)] ++
  map (fun ctrl => Cout (MsgControl (fst ctrl) (snd ctrl))) (metadata r) ++
  map (fun bp => frame_line (default no_frame (lookup_stream (snd bp) (frames w))))
      (buffers r).

(** [elsewhere request w w']: every request but [request] is as it was. *)
Definition elsewhere (request : RequestPtr) (w w' : World) : Prop :=
  forall other, other <> request -> heap w' !! other = heap w !! other.

(** [apart request w w']: every request but [request] is as it was, and
    there are as many requests as there were. *)
Definition apart (request : RequestPtr) (w w' : World) : Prop :=
  elsewhere request w w' /\ length (heap w') = length (heap w).

(** [main] after the camera is configured and the allocator made: lines
    367-490 (the part of [session] that follows [configure]). *)
Definition after_configure (env : Env) : M Z :=
  let config := fst (configuration env) :: snd (configuration env) in
  let streamConfig := fst (configuration env) in
  returned <- allocate_buffers env config ;;
  match returned with
  | Some code => value code
  | None =>
      let stream := stream streamConfig in
      buffers <- allocator_buffers stream ;;
      built <- create_requests env stream buffers [] ;;
      match built with
      | inr code => value code
      | inl requests =>
          emit SignalConnect >>
          capture env stream requests
      end
  end.

(** The events of the clean-up, lines 483-488. *)
Definition cleaned (s : Stream) : list Event :=
  [CameraStop; AllocatorFree s; AllocatorDelete; CameraRelease; CameraReset; CmStop].

(** [cycle h fl cs]: among the requests [h], the camera's queue [fl]
    holds exactly the queued ones and the deferred calls [cs] exactly the
    completed ones, each once. *)
Definition cycle (h : list Request) (fl cs : list RequestPtr) : Prop :=
  NoDup fl /\ NoDup cs /\
  forall i,
    (i ∈ fl <-> status <$> h !! i = Some Queued) /\
    (i ∈ cs <-> status <$> h !! i = Some Completed).

Definition in_cycle (w : World) : Prop :=
  cycle (heap w) (in_flight w) (calls w).

(** [cycling w]: the camera runs, the requests are in cycle and none of
    them is idle. *)
Definition cycling (w : World) : Prop :=
  in_cycle w /\ running w = true /\
  forall i r, heap w !! i = Some r -> status r <> Idle.

(** [keeps_cycling w w']: if [w] is cycling, so is [w']. *)
Definition keeps_cycling (w w' : World) : Prop := cycling w -> cycling w'.

(** [stays w w']: if [w] is in cycle, so is [w']. *)
Definition stays (w w' : World) : Prop := in_cycle w -> in_cycle w'.

(** [awaiting request done n w]: the completed request [request], as
    [done], waits for its handler behind [n] deferred calls, none of them
    for it, on a running camera; it is not in the camera's queue and is
    deferred once. *)
Definition awaiting (request : RequestPtr) (done : Request) (n : nat)
    (w : World) : Prop :=
  heap w !! request = Some done /\ running w = true /\
  (request ∉ in_flight w) /\
  exists pre post,
    calls w = pre ++ request :: post /\ length pre = n /\
    (request ∉ pre) /\ (request ∉ post).

(** [beside request p w w']: what a handler run for [p] may do, as far as
    the request [request] can tell: the camera runs or not as before, the
    deferred calls and the allocator are as they were, nothing but [p]
    has joined the camera's queue, and no call was made on [request]. *)
Definition beside (request p : RequestPtr) (w w' : World) : Prop :=
  running w' = running w /\ calls w' = calls w /\ allocated w' = allocated w /\
  (forall x, x ∈ in_flight w' -> x ∈ in_flight w \/ x = p) /\
  extends (spares request) w w'.

(** [requeued request done w w']: since [w], no call was made on
    [request] until its handler ran: it printed the request [done],
    reused it with its buffers and queued it again, which the camera
    accepted; in [w'] the request is queued with the buffers of [done]
    and no metadata, last in the camera's queue and not deferred. *)
Definition requeued (request : RequestPtr) (done : Request) (w w' : World) : Prop :=
  heap w' !! request
  = Some {| status := Queued; buffers := buffers done; metadata := [] |} /\
  allocated w' = allocated w /\
  (exists q, in_flight w' = q ++ [request] /\ (request ∉ q)) /\
  (request ∉ calls w') /\
  exists t w0,
    Forall (spares request) t /\
    trace w'
    = trace w ++ t ++ printed w0 request done ++
      [RequestReuse request ReuseBuffers; CameraQueueRequest request 0].

(** The device exports no buffer; the script would complete and cancel
    requests that do not exist. *)
Definition env_no_buffers : Env :=
  {| cameras := [Samples.nameless; Samples.external_pro];
     configuration := (Samples.raw, []);
     allocate := fun _ => 0;
     exported := fun _ => [];
     createRequest := fun _ => true;
     addBuffer := fun _ _ _ => 0;
     script := [DeviceCompletes 0%nat [] Samples.frame; Dispatch;
                DeviceCancels 1%nat; Exit 7] |}.

End Further.

(** * Properties *)

Import Naming Capture Samples Claims.

(** ** Camera names *)

Section NamingFacts.

#[local] Arguments String.append !_ _ / : simpl nomatch.

Example cameraName_front :
  cameraName {| id := "cam0";
                properties := {| Location := Some 0; Model := None |} |}
  = "Internal front camera (cam0)".
Proof. reflexivity. Qed.

Example cameraName_external_plain :
  cameraName {| id := "usb-1";
                properties := {| Location := Some 2; Model := None |} |}
  = "External camera (usb-1)".
Proof. reflexivity. Qed.

Example cameraName_external_webcam :
  cameraName {| id := "usb-1";
                properties := {| Location := Some 2; Model := Some "HD Webcam" |} |}
  = " 'HD Webcam' (usb-1)".
Proof. reflexivity. Qed.

Example cameraName_unknown_location :
  cameraName {| id := "x";
                properties := {| Location := Some 7; Model := Some "m" |} |}
  = " (x)".
Proof. reflexivity. Qed.

Lemma append_assoc (a b c : string) : (a +:+ b) +:+ c = a +:+ (b +:+ c).
Proof. induction a as [|x a IH]; simpl; [reflexivity | now rewrite IH]. Qed.

Lemma prefix_append (a b : string) : String.prefix a (a +:+ b) = true.
Proof.
  induction a as [|x a IH]; simpl; [destruct b; reflexivity |].
  destruct (Ascii.ascii_dec x x); [exact IH | congruence].
Qed.

Lemma prefix_contains (p s : string) :
  String.prefix p s = true -> contains p s = true.
Proof. intros H. destruct s; simpl in *; rewrite H; reflexivity. Qed.

(** A character that is not in [p] cuts every occurrence of [p]. *)
Lemma prefix_append_sep (c : ascii) (p : string) :
  occurs c p = false ->
  forall a b, String.prefix p (a +:+ String c b) = String.prefix p a.
Proof.
  induction p as [|x p IH]; intros Hc a b.
  - destruct a; reflexivity.
  - simpl in Hc. apply orb_false_iff in Hc as [Hx Hp].
    apply Ascii.eqb_neq in Hx.
    destruct a as [|y a]; simpl.
    + destruct (Ascii.ascii_dec x c); [contradiction | reflexivity].
    + destruct (Ascii.ascii_dec x y); [now apply IH | reflexivity].
Qed.

Lemma contains_cons (p : string) (x : ascii) (s : string) :
  contains p (String x s) = String.prefix p (String x s) || contains p s.
Proof. reflexivity. Qed.

Lemma contains_append_sep (c : ascii) (p : string) :
  occurs c p = false ->
  forall a b,
    contains p (a +:+ String c b) = contains p a || contains p b.
Proof.
  intros Hc a b. induction a as [|y a IH].
  - pose proof (prefix_append_sep c p Hc EmptyString b) as E.
    simpl in *. rewrite E. now rewrite orb_false_r.
  - pose proof (prefix_append_sep c p Hc (String y a) b) as E.
    rewrite contains_cons, <- orb_assoc, <- IH, <- E. reflexivity.
Qed.

(** The name of an external camera with a model, spelled out. *)
Lemma cameraName_external (camera : Camera) (model : string) :
  Location (properties camera) = Some CameraLocationExternal ->
  Model (properties camera) = Some model ->
  cameraName camera
  = " " +:+ String "'" (model +:+ String "'" (" " +:+ String "("
      (id camera +:+ String ")" EmptyString))).
Proof.
  intros HL HM. unfold cameraName. rewrite HL, HM. simpl.
  now rewrite append_assoc.
Qed.

(** C7, as stated, fails: a model string may itself hold the words
    "External camera", and then the returned name holds them too. *)
Lemma cameraName_external_base_text_counterexample :
  ~ (forall camera model,
       Location (properties camera) = Some CameraLocationExternal ->
       Model (properties camera) = Some model ->
       drops_base_text camera model).
Proof.
  intros H.
  destruct (H external_pro "External camera Pro" eq_refl eq_refl) as [_ Hno].
  vm_compute in Hno. discriminate Hno.
Qed.

(** C7 (amended): for an external camera with a model, the assignment of
    the model replaces the base name: the result is exactly the quoted
    model followed by the parenthesised id, it shows the quoted model, it
    does not start with "External camera", and these words occur in it
    only as far as the model string or the id hold them. *)
Theorem cameraName_external_overwrites (camera : Camera) (model : string) :
  Location (properties camera) = Some CameraLocationExternal ->
  Model (properties camera) = Some model ->
  cameraName camera = " '" +:+ model +:+ "' (" +:+ id camera +:+ ")" /\
  contains (" '" +:+ model +:+ "'") (cameraName camera) = true /\
  String.prefix "External camera" (cameraName camera) = false /\
  contains "External camera" (cameraName camera)
  = contains "External camera" model || contains "External camera" (id camera).
Proof.
  intros HL HM.
  pose proof (cameraName_external camera model HL HM) as E.
  repeat split.
  - unfold cameraName. rewrite HL, HM. simpl. now rewrite append_assoc.
  - apply prefix_contains. unfold cameraName. rewrite HL, HM.
    apply prefix_append.
  - rewrite E. reflexivity.
  - rewrite E.
    rewrite (contains_append_sep "'" "External camera" eq_refl " ").
    rewrite (contains_append_sep "'" "External camera" eq_refl model).
    rewrite (contains_append_sep "(" "External camera" eq_refl " ").
    rewrite (contains_append_sep ")" "External camera" eq_refl (id camera)).
    change (contains "External camera" " ") with false.
    change (contains "External camera" "") with false.
    simpl. now rewrite orb_false_r.
Qed.

Lemma cameraName_external_overwrites_witness :
  cameraName external_pro = " 'External camera Pro' (usb-2)" /\
  contains " 'External camera Pro'" (cameraName external_pro) = true /\
  String.prefix "External camera" (cameraName external_pro) = false /\
  contains "External camera" (cameraName external_pro)
  = contains "External camera" "External camera Pro"
    || contains "External camera" "usb-2".
Proof.
  exact (cameraName_external_overwrites external_pro "External camera Pro"
           eq_refl eq_refl).
Defined.

(** C9: every camera name ends with the id in parentheses, after a
    space; without a Location property the name is just that suffix. *)
Theorem cameraName_id_suffix (camera : Camera) :
  ends_with (cameraName camera) (" (" +:+ id camera +:+ ")") /\
  (Location (properties camera) = None ->
   cameraName camera = " (" +:+ id camera +:+ ")").
Proof.
  split.
  - unfold cameraName. eexists. reflexivity.
  - intros HL. unfold cameraName. rewrite HL. reflexivity.
Qed.

Lemma cameraName_id_suffix_witness :
  ends_with (cameraName nameless) " (platform/cam1)" /\
  cameraName nameless = " (platform/cam1)".
Proof.
  destruct (cameraName_id_suffix nameless) as [Hs Hn].
  split; [exact Hs | exact (Hn eq_refl)].
Defined.

End NamingFacts.

(** ** Reasoning about computations in [M] *)

(** A computation respects a preorder [R] on worlds when it only moves
    the world along [R]; straight-line code, branches and loops respect
    whatever their parts respect. *)
Section Respects.

Variable R : World -> World -> Prop.
Hypothesis R_refl : forall w, R w w.
Hypothesis R_trans : forall a b c, R a b -> R b c -> R a c.

Lemma respects_value {A} (a : A) : respects R (value a).
Proof. intros w. apply R_refl. Qed.

Lemma respects_get {A} (f : World -> A) : respects R (get f).
Proof. intros w. apply R_refl. Qed.

Lemma respects_bind {A B} (c : M A) (k : A -> M B) :
  respects R c -> (forall a, respects R (k a)) -> respects R (bind c k).
Proof.
  intros Hc Hk w. unfold bind.
  eapply R_trans; [apply Hc | apply Hk].
Qed.

Lemma respects_for_each {A} (l : list A) (body : A -> M unit) :
  (forall x, respects R (body x)) -> respects R (for_each l body).
Proof.
  intros Hb. induction l as [|x l IH]; simpl.
  - apply respects_value.
  - apply respects_bind; [apply Hb | intros _; exact IH].
Qed.

End Respects.

Lemma extends_refl P w : extends P w w.
Proof. exists []. split; [now rewrite app_nil_r | constructor]. Qed.

Lemma extends_trans P a b c : extends P a b -> extends P b c -> extends P a c.
Proof.
  intros (t1 & E1 & F1) (t2 & E2 & F2). exists (t1 ++ t2). split.
  - now rewrite E2, E1, app_assoc.
  - now apply Forall_app.
Qed.

Lemma same_but_trace_refl w : same_but_trace w w.
Proof. now destruct w. Qed.

Lemma same_but_trace_trans a b c :
  same_but_trace a b -> same_but_trace b c -> same_but_trace a c.
Proof.
  unfold same_but_trace. intros E1 E2. rewrite E2 at 1. rewrite E1 at 1.
  reflexivity.
Qed.

Lemma output_refl P w : output P w w.
Proof. split; [apply extends_refl | apply same_but_trace_refl]. Qed.

Lemma output_trans P a b c : output P a b -> output P b c -> output P a c.
Proof.
  intros [E1 S1] [E2 S2]. split;
    [eapply extends_trans | eapply same_but_trace_trans]; eassumption.
Qed.

Lemma output_emit P e : P e -> respects (output P) (emit e).
Proof.
  intros He w. split.
  - exists [e]. split; [reflexivity | now repeat constructor].
  - reflexivity.
Qed.

Lemma calm_refl w : calm w w.
Proof. repeat split. Qed.

Lemma calm_trans a b c : calm a b -> calm b c -> calm a c.
Proof.
  unfold calm. intros (A1 & A2 & A3 & A4) (B1 & B2 & B3 & B4).
  repeat split; congruence.
Qed.

Create HintDb world.

#[local] Hint Resolve output_refl output_trans extends_refl extends_trans : world.

(** Printing only adds output. *)
Lemma print_configuration_output P config :
  (forall m, P (Cout m)) -> respects (output P) (print_configuration config).
Proof.
  intros HP. unfold print_configuration, cout.
  apply respects_for_each; eauto with world. intros cfg.
  apply respects_bind; eauto with world; [now apply output_emit |]. intros _.
  apply respects_for_each; eauto with world. intros pfmt.
  repeat (apply respects_bind; eauto with world;
          [now apply output_emit | intros _]).
  apply respects_for_each; eauto with world. intros size.
  now apply output_emit.
Qed.

Lemma quiet_cout m : quiet (Cout m).
Proof. split; reflexivity. Qed.

Lemma main_without_cameras (env : Env) :
  cameras env = [] ->
  main env = (EXIT_FAILURE, set_trace [CmStart; Cout MsgNoCameras; CmStop] initial).
Proof. intros H. unfold main, main_body. rewrite H. reflexivity. Qed.

(** C10: with no camera, [main] prints its message, stops the camera
    manager and returns [EXIT_FAILURE]; these are all its calls, so no
    camera is acquired, configured or started and the loop is not run. *)
Theorem main_no_cameras (env : Env) :
  cameras env = [] ->
  fst (main env) = EXIT_FAILURE /\
  trace (snd (main env)) = [CmStart; Cout MsgNoCameras; CmStop] /\
  acquired (snd (main env)) = false /\
  running (snd (main env)) = false /\
  in_flight (snd (main env)) = [].
Proof.
  intros H. rewrite (main_without_cameras env H). repeat split.
Qed.

Lemma main_no_cameras_witness :
  fst (main env_no_camera) = EXIT_FAILURE /\
  trace (snd (main env_no_camera)) = [CmStart; Cout MsgNoCameras; CmStop] /\
  acquired (snd (main env_no_camera)) = false /\
  running (snd (main env_no_camera)) = false /\
  in_flight (snd (main env_no_camera)) = [].
Proof.
  apply (main_no_cameras env_no_camera). reflexivity.
Defined.

(** ** The set-up loops *)

Lemma lookup_stream_head {A} (s : Stream) (a : A) l :
  lookup_stream s ((s, a) :: l) = Some a.
Proof. simpl. now rewrite Nat.eqb_refl. Qed.

(** One turn of the allocation loop. *)
Lemma allocate_buffers_cons env cfg config w :
  allocate_buffers env (cfg :: config) w
  = let s := stream cfg in
    let ret := allocate env s in
    if Z.ltb ret 0 then
      (Some EXIT_FAILURE,
       set_trace (trace w ++ [AllocatorAllocate s ret; Cerr MsgCantAllocate]) w)
    else
      allocate_buffers env config
        (set_trace (trace w ++ [AllocatorAllocate s ret;
                                Cout (MsgAllocated (length (exported env s)))])
           (set_allocated ((s, exported env s) :: allocated w) w)).
Proof.
  cbn [allocate_buffers]. unfold allocator_allocate, allocator_buffers, cerr, cout.
  cbv zeta. destruct (Z.ltb (allocate env (stream cfg)) 0) eqn:Hret.
  - cbn. rewrite Hret. cbn. now rewrite <- app_assoc.
  - cbn. rewrite Hret. cbn. rewrite Nat.eqb_refl. cbn.
    now rewrite <- app_assoc.
Qed.

Lemma allocate_buffers_outcome env config : forall w,
  let r := allocate_buffers env config w in
  calm w (snd r) /\ heap (snd r) = heap w /\
  match fst r with
  | Some code =>
      code = EXIT_FAILURE /\
      exists t cfg,
        trace (snd r)
        = trace w ++ t ++ [AllocatorAllocate (stream cfg) (allocate env (stream cfg));
                           Cerr MsgCantAllocate]
        /\ Forall quiet t /\ In cfg config /\ allocate env (stream cfg) < 0
  | None =>
      extends quiet w (snd r) /\
      Forall (fun cfg => 0 <= allocate env (stream cfg)) config /\
      forall s,
        In s (map stream config)
        \/ lookup_stream s (allocated w) = Some (exported env s) ->
        lookup_stream s (allocated (snd r)) = Some (exported env s)
  end.
Proof.
  induction config as [|cfg config IH]; intros w.
  - cbn. repeat split; auto with world.
    intros s [[] | H]; exact H.
  - cbv zeta. rewrite allocate_buffers_cons. cbv zeta.
    destruct (Z.ltb (allocate env (stream cfg)) 0) eqn:Hret.
    + cbn. repeat split.
      exists [], cfg.
      repeat split; [constructor | now left | now apply Z.ltb_lt].
    + match goal with |- context [allocate_buffers env config ?w1] =>
        specialize (IH w1); cbv zeta in IH; set (r := allocate_buffers env config w1) in *
      end.
      destruct IH as (Hcalm & Hheap & Hres).
      split; [exact Hcalm |]. split; [exact Hheap |].
      assert (Hq : quiet (AllocatorAllocate (stream cfg) (allocate env (stream cfg)))).
      { split; [reflexivity | exact Hret]. }
      destruct (fst r) as [code|].
      * destruct Hres as (Hcode & t & cfg' & Ht & Hqt & Hin & Hneg).
        split; [exact Hcode |].
        eexists (_ :: _ :: t), cfg'. cbn in Ht. rewrite Ht.
        rewrite <- !app_assoc. cbn. repeat split; [| now right | exact Hneg].
        constructor; [exact Hq |]. constructor; [apply quiet_cout | exact Hqt].
      * destruct Hres as (Hext & Hall & Hlook). repeat split.
        -- eapply extends_trans; [| exact Hext].
           eexists [_; _]. split; [reflexivity |].
           constructor; [exact Hq |]. constructor; [apply quiet_cout | constructor].
        -- constructor; [now apply Z.ltb_ge | exact Hall].
        -- intros s Hs. apply Hlook. cbn [allocated set_trace set_allocated].
           destruct Hs as [[<- | Hin] | Hold].
           ++ right. apply lookup_stream_head.
           ++ left. exact Hin.
           ++ right. cbn. destruct (Nat.eqb (stream cfg) s) eqn:Heq; [| exact Hold].
              apply Nat.eqb_eq in Heq. now subst.
Qed.

Lemma alter_end {A} (f : A -> A) (l : list A) (x : A) :
  alter f (length l) (l ++ [x]) = l ++ [f x].
Proof. induction l as [|y l IH]; cbn; [reflexivity | now rewrite IH]. Qed.

(** One turn of the request loop. *)
Lemma create_requests_cons env s buffer todo requests w :
  create_requests env s (buffer :: todo) requests w
  = let n := length (heap w) in
    if createRequest env n then
      let ret := addBuffer env n s buffer in
      if Z.ltb ret 0 then
        (inr EXIT_FAILURE,
         set_trace (trace w ++ [CameraCreateRequest (Some n);
                                RequestAddBuffer n s buffer ret;
                                Cerr MsgCantSetBuffer])
           (set_heap (heap w ++ [new_request]) w))
      else
        create_requests env s todo (requests ++ [n])
          (set_trace (trace w ++ [CameraCreateRequest (Some n);
                                  RequestAddBuffer n s buffer ret])
             (set_heap (heap w ++ [built s buffer]) w))
    else
      (inr EXIT_FAILURE,
       set_trace (trace w ++ [CameraCreateRequest None; Cerr MsgCantCreateRequest]) w).
Proof.
  cbn [create_requests].
  unfold camera_createRequest, request_addBuffer, cerr. cbv zeta. cbn.
  destruct (createRequest env (length (heap w))) eqn:Hc; cbn.
  - destruct (Z.ltb (addBuffer env (length (heap w)) s buffer) 0) eqn:Hret;
      cbn; rewrite ?Hret; cbn.
    + now rewrite <- !app_assoc.
    + rewrite alter_end, <- !app_assoc. reflexivity.
  - now rewrite <- app_assoc.
Qed.

Lemma create_requests_outcome env s todo : forall requests w,
  let r := create_requests env s todo requests w in
  let n := length (heap w) in
  calm w (snd r) /\ allocated (snd r) = allocated w /\
  match fst r with
  | inr code =>
      code = EXIT_FAILURE /\
      (exists t e m,
         trace (snd r) = trace w ++ t ++ [e; Cerr m]
         /\ Forall quiet t /\ failing e = true) /\
      (exists i b,
         todo !! i = Some b /\
         (createRequest env (n + i)%nat = false
          \/ addBuffer env (n + i)%nat s b < 0))
  | inl rs =>
      extends quiet w (snd r) /\
      rs = requests ++ seq n (length todo) /\
      heap (snd r) = heap w ++ map (built s) todo
  end.
Proof.
  induction todo as [|buffer todo IH]; intros requests w.
  - cbn. rewrite !app_nil_r. repeat split; auto with world.
  - cbv zeta. rewrite create_requests_cons. cbv zeta.
    destruct (createRequest env (length (heap w))) eqn:Hc.
    2:{ cbn. repeat split.
        - exists [], (CameraCreateRequest None), MsgCantCreateRequest.
          repeat split. constructor.
        - exists 0%nat, buffer. rewrite Nat.add_0_r. split; [reflexivity | now left]. }
    destruct (Z.ltb (addBuffer env (length (heap w)) s buffer) 0) eqn:Hret.
    { cbn. repeat split.
      - eexists [_], _, MsgCantSetBuffer. cbn. repeat split.
        + repeat constructor.
        + exact Hret.
      - exists 0%nat, buffer. rewrite Nat.add_0_r. split; [reflexivity |].
        right. now apply Z.ltb_lt. }
    match goal with |- context [create_requests env s todo ?rs ?w1] =>
      specialize (IH rs w1); cbv zeta in IH;
      set (r := create_requests env s todo rs w1) in *
    end.
    cbn [heap set_trace set_heap] in IH. rewrite length_app in IH. cbn in IH.
    destruct IH as (Hcalm & Halloc & Hres).
    split; [exact Hcalm |]. split; [exact Halloc |].
    assert (Hq1 : quiet (CameraCreateRequest (Some (length (heap w))))) by (split; reflexivity).
    assert (Hq2 : quiet (RequestAddBuffer (length (heap w)) s buffer
                           (addBuffer env (length (heap w)) s buffer))).
    { split; [reflexivity | exact Hret]. }
    destruct (fst r) as [rs|code].
    + destruct Hres as (Hext & Hrs & Hheap). repeat split.
      * eapply extends_trans; [| exact Hext].
        eexists [_; _]. split; [reflexivity |]. repeat constructor; assumption.
      * rewrite Hrs, <- app_assoc. cbn. do 3 f_equal. lia.
      * rewrite Hheap, <- app_assoc. reflexivity.
    + destruct Hres as (Hcode & (t & e & m & Ht & Hqt & He) & (i & b & Hi & Hfail)).
      split; [exact Hcode |]. split.
      * eexists (_ :: _ :: t), e, m. cbn in Ht. rewrite Ht, <- !app_assoc. cbn.
        repeat split; [| exact He]. repeat constructor; assumption.
      * exists (S i), b. split; [exact Hi |].
        replace (length (heap w) + S i)%nat with (length (heap w) + 1 + i)%nat by lia.
        exact Hfail.
Qed.

(** ** The capture phase *)

Lemma extends_intro P w w' t :
  trace w' = trace w ++ t -> Forall P t -> extends P w w'.
Proof. intros E F. exists t. now split. Qed.

Ltac extends_now :=
  first [ apply extends_refl
        | cbn; apply extends_refl
        | eapply extends_intro;
          [ cbn; rewrite <- ?app_assoc; reflexivity
          | repeat constructor ] ].

Ltac respects_with atom :=
  repeat first
    [ atom
    | apply respects_value; eauto with world
    | apply respects_get; eauto with world
    | apply respects_bind; [eauto with world | | intros ?]
    | apply respects_for_each; [eauto with world | eauto with world | intros ?] ].

Lemma camera_queueRequest_unfailing request :
  respects (extends unfailing) (camera_queueRequest request).
Proof.
  intros w. unfold camera_queueRequest.
  destruct (if running w then _ else _); extends_now.
Qed.

Lemma emit_unfailing e : failing e = false -> respects (extends unfailing) (emit e).
Proof. intros He w. eapply extends_intro; [reflexivity | now repeat constructor]. Qed.

Lemma request_reuse_unfailing request flags :
  respects (extends unfailing) (request_reuse request flags).
Proof.
  intros w. unfold request_reuse. cbn.
  destruct (transition _ _ _); extends_now.
Qed.

Lemma processRequest_unfailing request :
  respects (extends unfailing) (processRequest request).
Proof.
  unfold processRequest, cout, request_metadata, request_buffers, buffer_metadata.
  respects_with
    ltac:(first [ now apply emit_unfailing
                | apply request_reuse_unfailing
                | apply camera_queueRequest_unfailing ]).
Qed.

Lemma requestComplete_unfailing request :
  respects (extends unfailing) (requestComplete request).
Proof.
  intros w. unfold requestComplete, loop_callLater.
  destruct (heap w !! request) as [r|]; [| extends_now].
  destruct (Status_eqb (status r) RequestCancelled) eqn:Hst;
    cbn; rewrite ?Hst; extends_now.
Qed.

Lemma loop_dispatch_unfailing : respects (extends unfailing) loop_dispatch.
Proof.
  intros w. unfold loop_dispatch. destruct (calls w) as [|request rest].
  - extends_now.
  - apply (processRequest_unfailing request (set_calls rest w)).
Qed.

Lemma device_complete_trace request md fm w :
  trace (snd (device_complete request md fm w)) = trace w.
Proof.
  unfold device_complete.
  destruct (transition _ request w), (heap w !! request); reflexivity.
Qed.

Lemma device_cancel_trace request w :
  trace (snd (device_cancel request w)) = trace w.
Proof.
  unfold device_cancel. destruct (transition _ request w); reflexivity.
Qed.

Lemma loop_run_unfailing events : respects (extends unfailing) (loop_run events).
Proof.
  induction events as [|ev events IH]; [intros w; extends_now |].
  destruct ev as [request md fm | request | | code]; cbn [loop_run].
  - apply respects_bind; eauto with world.
    + intros w. eapply extends_intro;
        [rewrite device_complete_trace, app_nil_r; reflexivity | constructor].
    + intros [|]; apply respects_bind; eauto with world.
      * apply requestComplete_unfailing.
      * apply respects_value; eauto with world.
  - apply respects_bind; eauto with world.
    + intros w. eapply extends_intro;
        [rewrite device_cancel_trace, app_nil_r; reflexivity | constructor].
    + intros [|]; apply respects_bind; eauto with world.
      * apply requestComplete_unfailing.
      * apply respects_value; eauto with world.
  - apply respects_bind; eauto with world. apply loop_dispatch_unfailing.
  - intros w. extends_now.
Qed.

Lemma start_capture_unfailing requests :
  respects (extends unfailing) (start_capture requests).
Proof.
  unfold start_capture, camera_start.
  respects_with
    ltac:(first [ now apply emit_unfailing
                | apply camera_queueRequest_unfailing
                | intros w; extends_now ]).
Qed.

Lemma clean_up_unfailing s : respects (extends unfailing) (clean_up s).
Proof.
  unfold clean_up, camera_stop, allocator_free, camera_release.
  respects_with
    ltac:(first [ now apply emit_unfailing | intros w; extends_now ]).
Qed.

Lemma capture_unfailing env s requests :
  respects (extends unfailing) (capture env s requests).
Proof.
  unfold capture, loop_timeout, loop_exec, cout.
  apply respects_bind; eauto with world; [apply start_capture_unfailing |].
  intros _. apply respects_bind; eauto with world; [now apply emit_unfailing |].
  intros _. apply respects_bind; eauto with world.
  { apply respects_bind; eauto with world; [now apply emit_unfailing |].
    intros _. apply loop_run_unfailing. }
  intros ret. apply respects_bind; eauto with world; [now apply emit_unfailing |].
  intros _. apply respects_bind; eauto with world; [apply clean_up_unfailing |].
  intros _. apply respects_value; eauto with world.
Qed.

(** ** The session as a whole *)

Lemma output_emit_quiet e : quiet e -> respects (output quiet) (emit e).
Proof. apply output_emit. Qed.

Lemma configure_outcome env first w :
  let w' := snd (configure env first w) in
  extends quiet w w' /\ w' = set_trace (trace w') (set_acquired true w).
Proof.
  cbv zeta. unfold configure, camera_acquire. cbv zeta.
  match goal with |- context [bind (emit CameraGenerateConfiguration) ?k] =>
    set (rest := bind (emit CameraGenerateConfiguration) k)
  end.
  assert (Hrest : respects (output quiet) rest).
  { subst rest. unfold cout.
    respects_with
      ltac:(first [ apply output_emit_quiet; split; reflexivity
                  | apply print_configuration_output; intros; apply quiet_cout ]). }
  cbn [bind emit modify fst snd].
  match goal with |- context [rest ?w1] =>
    destruct (Hrest w1) as [(t & Ht & Hq) Hs]; set (w2 := snd (rest w1)) in *
  end.
  clearbody w2. clear Hrest. clearbody rest.
  cbn [trace set_trace set_acquired] in Ht. split.
  - eapply extends_intro.
    + rewrite Ht, <- !app_assoc. cbn. reflexivity.
    + repeat (constructor; [split; reflexivity |]). exact Hq.
  - rewrite Hs. reflexivity.
Qed.

Lemma session_outcome env first w :
  let s := stream (fst (configuration env)) in
  let r := session env first w in
  (fst r = EXIT_FAILURE /\
   acquired (snd r) = true /\ running (snd r) = running w /\
   in_flight (snd r) = in_flight w /\
   setup_failure env (length (heap w)) /\
   exists t e m,
     trace (snd r) = trace w ++ t ++ [e; Cerr m]
     /\ Forall quiet t /\ failing e = true)
  \/
  (exists w1,
     r = capture env s (seq (length (heap w)) (length (exported env s))) w1 /\
     extends quiet w w1 /\
     heap w1 = heap w ++ map (built s) (exported env s) /\
     acquired w1 = true /\ running w1 = running w /\
     in_flight w1 = in_flight w /\ calls w1 = calls w).
Proof.
  cbv zeta. unfold session, setup_failure. cbv zeta.
  set (config := fst (configuration env) :: snd (configuration env)).
  set (s := stream (fst (configuration env))).
  assert (Hs : In s (map stream config)) by now left.
  clearbody config.
  destruct (configure_outcome env first w) as [Hext0 Hw0].
  cbn [bind]. set (w0 := snd (configure env first w)) in *.
  assert (Hf0 : acquired w0 = true /\ running w0 = running w /\
                in_flight w0 = in_flight w /\ calls w0 = calls w /\
                heap w0 = heap w).
  { rewrite Hw0. repeat split. }
  clear Hw0. clearbody w0.
  destruct Hf0 as (Hacq0 & Hrun0 & Hfl0 & Hcalls0 & Hheap0).
  destruct (allocate_buffers_outcome env config w0)
    as ((Ca & Cr & Cf & Cc) & Hheap1 & Hres1).
  set (r1 := allocate_buffers env config w0) in *. clearbody r1.
  destruct r1 as [[code|] w1]; cbn [fst snd] in *.
  { (* an allocation failed *)
    left. destruct Hres1 as (-> & t & cfg & Ht & Hq & Hin & Hneg).
    cbn [value fst snd]. repeat split; try congruence.
    - left. exists cfg. split; assumption.
    - destruct Hext0 as (t0 & Ht0 & Hq0).
      exists (t0 ++ t), (AllocatorAllocate (stream cfg) (allocate env (stream cfg))),
        MsgCantAllocate.
      rewrite Ht, Ht0, <- !app_assoc. repeat split.
      + now apply Forall_app.
      + now apply Z.ltb_lt. }
  destruct Hres1 as (Hext1 & Hall & Hlook).
  unfold allocator_buffers. cbn [bind get fst snd].
  rewrite (Hlook s (or_introl Hs)).
  change (default [] (Some (exported env s))) with (exported env s).
  destruct (create_requests_outcome env s (exported env s) [] w1)
    as ((Da & Dr & Df & Dc) & Halloc2 & Hres2).
  set (r2 := create_requests env s (exported env s) [] w1) in *. clearbody r2.
  rewrite Hheap1, Hheap0 in Hres2.
  destruct r2 as [[requests|code] w2]; cbn [fst snd] in *.
  - (* the set-up succeeded *)
    right. destruct Hres2 as (Hext2 & -> & Hheap2). cbn [app bind emit fst snd].
    eexists. split; [reflexivity |]. cbn [heap acquired running in_flight calls set_trace].
    repeat split; try congruence.
    eapply extends_trans; [exact Hext0 |].
    eapply extends_trans; [exact Hext1 |].
    eapply extends_trans; [exact Hext2 |].
    eapply extends_intro; [reflexivity |]. repeat constructor.
  - (* a request could not be built *)
    left. destruct Hres2 as (-> & (t & e & m & Ht & Hq & He) & (i & b & Hi & Hfail)).
    cbn [value fst snd]. repeat split; try congruence.
    + right. exists i, b. split; assumption.
    + destruct Hext0 as (t0 & Ht0 & Hq0). destruct Hext1 as (t1 & Ht1 & Hq1).
      exists (t0 ++ t1 ++ t), e, m.
      rewrite Ht, Ht1, Ht0, <- !app_assoc. repeat split; [| exact He].
      repeat (apply Forall_app; split); assumption.
Qed.

Lemma for_each_cout {A} (f : A -> Message) (l : list A) w :
  for_each l (fun x => cout (f x)) w
  = (tt, set_trace (trace w ++ map (fun x => Cout (f x)) l) w).
Proof.
  revert w. induction l as [|x l IH]; intros w; cbn.
  - rewrite app_nil_r. now destruct w.
  - unfold cout at 1. cbn. rewrite IH. cbn. now rewrite <- app_assoc.
Qed.

Lemma main_session env first rest :
  cameras env = first :: rest -> main env = session env first (listed env).
Proof.
  intros H. unfold main, main_body, listed. cbn [bind emit].
  rewrite (for_each_cout (fun c => MsgCameraName (cameraName c))).
  cbn [fst snd]. rewrite H. reflexivity.
Qed.

Lemma listed_trace_quiet env : Forall quiet (trace (listed env)).
Proof.
  cbn. constructor; [split; reflexivity |].
  induction (cameras env); cbn; constructor; [apply quiet_cout | assumption].
Qed.

Lemma failing_not_starting e : failing e = true -> starting e = false.
Proof. destruct e; cbn; congruence. Qed.

Lemma quiet_unfailing e : quiet e -> unfailing e.
Proof. now intros [_ H]. Qed.

(** C8: when an allocation, the creation of a request or the binding of
    a buffer fails, [main] returns [EXIT_FAILURE] on the spot: the failed
    call and the message on [std::cerr] are the last events, no call
    before it failed (nothing is retried), the camera is never started
    and no request is ever queued. *)
Theorem main_setup_failure (env : Env) :
  (exists e, In e (trace (snd (main env))) /\ failing e = true) ->
  fst (main env) = EXIT_FAILURE /\
  (exists t e m,
     trace (snd (main env)) = t ++ [e; Cerr m]
     /\ failing e = true /\ Forall quiet t) /\
  Forall (fun e => starting e = false) (trace (snd (main env))) /\
  running (snd (main env)) = false /\
  in_flight (snd (main env)) = [].
Proof.
  intros (e & Hin & He).
  destruct (cameras env) as [|first rest] eqn:Hcams.
  { rewrite (main_without_cameras env Hcams) in Hin. cbn in Hin.
    destruct Hin as [<- | [<- | [<- | []]]]; discriminate He. }
  rewrite (main_session env first rest Hcams) in *.
  pose proof (listed_trace_quiet env) as Hq0.
  destruct (session_outcome env first (listed env))
    as [(Hst & _ & Hrun & Hfl & _ & t & e' & m & Ht & Hq & He')
       | (w1 & Hr & Hext & _)].
  - split; [exact Hst |]. split; [| split; [| split]].
    + exists (trace (listed env) ++ t), e', m. rewrite Ht, <- app_assoc.
      repeat split; [exact He' |]. now apply Forall_app.
    + rewrite Ht. apply Forall_app. split; [| apply Forall_app; split].
      * eapply Forall_impl; [exact Hq0 |]. now intros ? [].
      * eapply Forall_impl; [exact Hq |]. now intros ? [].
      * constructor; [now apply failing_not_starting |].
        constructor; [reflexivity | constructor].
    + rewrite Hrun. reflexivity.
    + rewrite Hfl. reflexivity.
  - exfalso. rewrite Hr in Hin.
    match type of Hin with context [capture env ?s ?rs w1] =>
      destruct (capture_unfailing env s rs w1) as (t2 & Ht2 & Hq2)
    end.
    destruct Hext as (t1 & Ht1 & Hq1).
    rewrite Ht2, Ht1 in Hin.
    assert (Hall : Forall unfailing ((trace (listed env) ++ t1) ++ t2)).
    { repeat (apply Forall_app; split); try assumption;
        eapply Forall_impl; eauto using quiet_unfailing. }
    rewrite Forall_forall in Hall. specialize (Hall e).
    rewrite <- list_elem_of_In in Hin. specialize (Hall Hin).
    unfold unfailing in Hall. congruence.
Qed.

Lemma main_setup_failure_witness :
  fst (main env_no_request) = EXIT_FAILURE /\
  (exists t e m,
     trace (snd (main env_no_request)) = t ++ [e; Cerr m]
     /\ failing e = true /\ Forall quiet t) /\
  Forall (fun e => starting e = false) (trace (snd (main env_no_request))) /\
  running (snd (main env_no_request)) = false /\
  in_flight (snd (main env_no_request)) = [].
Proof.
  apply (main_setup_failure env_no_request).
  exists (CameraCreateRequest None). split; [| reflexivity].
  vm_compute. repeat (first [left; reflexivity | right]).
Defined.

(** ** The exit status *)

(** What [loop.exec()] returns is decided by the script alone. *)
Lemma capture_reports env s requests w :
  exists w2,
    In (Cout (MsgCaptureRan TIMEOUT_SEC (fst (loop_exec env w2))))
       (trace (snd (capture env s requests w))).
Proof.
  unfold capture, loop_timeout.
  set (before := bind (start_capture requests) (fun _ => emit (LoopTimeout TIMEOUT_SEC))).
  exists (snd (before w)).
  change (bind (start_capture requests) ?k) with
    (bind before (fun _ => ret <- loop_exec env ;;
                           (cout (MsgCaptureRan TIMEOUT_SEC ret) >>
                            clean_up s >> value EXIT_SUCCESS))).
  cbn [bind]. set (w2 := snd (before w)). clearbody w2. clear before.
  set (r := loop_exec env w2). clearbody r.
  unfold cout, clean_up, camera_stop, allocator_free, camera_release.
  cbn. rewrite <- !app_assoc. apply in_or_app. right. now left.
Qed.

Lemma starting_LoopExec_absent t :
  Forall (fun e => starting e = false) t -> ~ In LoopExec t.
Proof.
  intros H Hin. rewrite Forall_forall in H.
  apply list_elem_of_In in Hin. specialize (H _ Hin). discriminate H.
Qed.

(** C2, as stated, fails: when the loop is stopped with code 1, [main]
    still returns 0. *)
Lemma main_status_counterexample : ~ returns_loop_status (env_of [Exit 1]).
Proof.
  intros H.
  assert (Hin : In LoopExec (trace (snd (main (env_of [Exit 1]))))).
  { vm_compute. repeat (first [left; reflexivity | right]). }
  specialize (H Hin initial). vm_compute in H. discriminate H.
Qed.

(** C2 (amended): every execution that reaches the event loop returns
    [EXIT_SUCCESS], whatever [loop.exec()] returned; that value is only
    printed in the "Capture ran for" message. *)
Theorem main_exit_status (env : Env) :
  In LoopExec (trace (snd (main env))) ->
  fst (main env) = EXIT_SUCCESS /\
  exists w,
    In (Cout (MsgCaptureRan TIMEOUT_SEC (fst (loop_exec env w))))
       (trace (snd (main env))).
Proof.
  intros Hin.
  destruct (cameras env) as [|first rest] eqn:Hcams.
  { rewrite (main_without_cameras env Hcams) in Hin. cbn in Hin.
    destruct Hin as [E | [E | [E | []]]]; discriminate E. }
  rewrite (main_session env first rest Hcams) in *.
  destruct (session_outcome env first (listed env))
    as [(_ & _ & _ & _ & _ & t & e & m & Ht & Hq & He) | (w1 & Hr & _)].
  - exfalso. revert Hin. apply starting_LoopExec_absent. rewrite Ht.
    apply Forall_app. split; [| apply Forall_app; split].
    + eapply Forall_impl; [apply listed_trace_quiet |]. now intros ? [].
    + eapply Forall_impl; [exact Hq |]. now intros ? [].
    + constructor; [now apply failing_not_starting |].
      constructor; [reflexivity | constructor].
  - rewrite Hr. split; [reflexivity |]. apply capture_reports.
Qed.

Lemma main_exit_status_witness :
  fst (main (env_of [Exit 1])) = EXIT_SUCCESS /\
  exists w,
    In (Cout (MsgCaptureRan TIMEOUT_SEC (fst (loop_exec (env_of [Exit 1]) w))))
       (trace (snd (main (env_of [Exit 1])))).
Proof.
  apply (main_exit_status (env_of [Exit 1])).
  vm_compute. repeat (first [left; reflexivity | right]).
Defined.

(** ** Leaving early *)

(** Every run in which a set-up call fails ends with the camera still
    acquired. *)
Lemma main_failure_leaves_camera_acquired (env : Env) :
  (exists e, In e (trace (snd (main env))) /\ failing e = true) ->
  fst (main env) = EXIT_FAILURE /\ acquired (snd (main env)) = true.
Proof.
  intros (e & Hin & He).
  destruct (cameras env) as [|first rest] eqn:Hcams.
  { rewrite (main_without_cameras env Hcams) in Hin. cbn in Hin.
    destruct Hin as [<- | [<- | [<- | []]]]; discriminate He. }
  rewrite (main_session env first rest Hcams) in *.
  destruct (session_outcome env first (listed env))
    as [(Hst & Hacq & _) | (w1 & Hr & Hext & _)]; [now split |].
  exfalso. rewrite Hr in Hin.
  match type of Hin with context [capture env ?s ?rs w1] =>
    destruct (capture_unfailing env s rs w1) as (t2 & Ht2 & Hq2)
  end.
  destruct Hext as (t1 & Ht1 & Hq1). rewrite Ht2, Ht1 in Hin.
  assert (Hall : Forall unfailing ((trace (listed env) ++ t1) ++ t2)).
  { repeat (apply Forall_app; split); try assumption;
      eapply Forall_impl; eauto using quiet_unfailing, listed_trace_quiet. }
  rewrite Forall_forall in Hall. specialize (Hall e).
  rewrite <- list_elem_of_In in Hin. specialize (Hall Hin).
  unfold unfailing in Hall. congruence.
Qed.

(** C3 fails on the code: when the allocator has no memory, [main]
    returns right after the message, with the camera still acquired:
    nothing is stopped, freed or released; the same holds when a request
    cannot be created or a buffer cannot be bound. *)
Theorem main_failure_keeps_camera :
  main env_no_memory
  = (EXIT_FAILURE,
     {| heap := []; acquired := true; running := false; allocated := [];
        frames := []; in_flight := []; calls := [];
        trace := [CmStart; Cout (MsgCameraName " 'External camera Pro' (usb-2)");
                  CmGet "usb-2"; CameraAcquire; CameraGenerateConfiguration;
                  Cout (MsgStreamConfig "800x600-SRGGB10");
                  Cout (MsgPixelFormat "SRGGB10");
                  Cout (MsgSizeRange "(640x480)-(800x600)");
                  Cout (MsgSize "640x480"); Cout (MsgSize "800x600");
                  Cout (MsgDefaultConfig "800x600-SRGGB10"); ConfigValidate;
                  Cout (MsgValidatedConfig "640x480-SRGGB10"); CameraConfigure;
                  AllocatorNew; AllocatorAllocate 0%nat (-12);
                  Cerr MsgCantAllocate] |}) /\
  ~ releases_camera env_no_memory /\
  (fst (main env_no_request) = EXIT_FAILURE /\ ~ releases_camera env_no_request /\
   ~ In CameraRelease (trace (snd (main env_no_request)))) /\
  (fst (main env_no_binding) = EXIT_FAILURE /\ ~ releases_camera env_no_binding /\
   ~ In CameraRelease (trace (snd (main env_no_binding)))).
Proof.
  unfold releases_camera.
  repeat split; try (vm_compute; reflexivity); try (vm_compute; discriminate).
  - vm_compute. intros H. repeat (destruct H as [H | H]; [discriminate H |]). exact H.
  - vm_compute. intros H. repeat (destruct H as [H | H]; [discriminate H |]). exact H.
Qed.

(** ** The slot and the loop *)

Lemma requestComplete_cancelled w request r :
  heap w !! request = Some r -> status r = RequestCancelled ->
  requestComplete request w
  = (tt, set_trace (trace w ++ [SlotRequestComplete request RequestCancelled]) w).
Proof.
  intros Hr Hst. unfold requestComplete. rewrite Hr, Hst. reflexivity.
Qed.

Lemma requestComplete_accepted w request r :
  heap w !! request = Some r -> status r <> RequestCancelled ->
  requestComplete request w
  = (tt, set_trace (trace w ++ [SlotRequestComplete request (status r);
                                LoopCallLater request])
           (set_calls (calls w ++ [request]) w)).
Proof.
  intros Hr Hst. unfold requestComplete, loop_callLater. rewrite Hr.
  destruct (status r); try congruence; cbn; now rewrite <- app_assoc.
Qed.

(** C1, as stated, fails: a cancelled request that reaches the slot is not
    deferred to the loop. *)
Lemma cancelled_request_counterexample : ~ enqueues_cancelled world_cancelled 0%nat.
Proof.
  intros H. specialize (H _ eq_refl eq_refl). vm_compute in H. exact H.
Qed.

(** C1 (amended): for a request delivered to the slot in the cancelled
    state, [requestComplete] returns at once: the world is as before but
    for the record of the invocation, so nothing is deferred to the loop,
    [processRequest] is not invoked for it, its buffers stay bound to it
    and it is not queued to the camera again. *)
Theorem cancelled_request_is_dropped (w : World) (request : RequestPtr) (r : Request) :
  heap w !! request = Some r -> status r = RequestCancelled ->
  let w' := snd (requestComplete request w) in
  w' = set_trace (trace w ++ [SlotRequestComplete request RequestCancelled]) w /\
  calls w' = calls w /\
  handled (trace w') = handled (trace w) /\
  heap w' !! request = Some r /\
  allocated w' = allocated w /\
  in_flight w' = in_flight w.
Proof.
  intros Hr Hst. cbv zeta. rewrite (requestComplete_cancelled w request r Hr Hst).
  cbn [snd]. repeat split; try assumption.
  cbn [trace set_trace]. unfold handled. rewrite omap_app. cbn.
  now rewrite app_nil_r.
Qed.

Lemma cancelled_request_is_dropped_witness :
  let w' := snd (requestComplete 0%nat world_cancelled) in
  w' = set_trace (trace world_cancelled ++ [SlotRequestComplete 0%nat RequestCancelled])
         world_cancelled /\
  calls w' = calls world_cancelled /\
  handled (trace w') = handled (trace world_cancelled) /\
  heap w' !! 0%nat
  = Some {| status := RequestCancelled; buffers := [(0%nat, 10%nat)]; metadata := [] |} /\
  allocated w' = allocated world_cancelled /\
  in_flight w' = in_flight world_cancelled.
Proof.
  exact (cancelled_request_is_dropped world_cancelled 0%nat _ eq_refl eq_refl).
Defined.

(** *** Notifications are handled in order *)

Lemma steady_refl w : steady w w.
Proof. split; [apply extends_refl | reflexivity]. Qed.

Lemma steady_trans a b c : steady a b -> steady b c -> steady a c.
Proof.
  intros [E1 C1] [E2 C2]. split; [eapply extends_trans; eassumption | congruence].
Qed.

#[local] Hint Resolve steady_refl steady_trans : world.

Lemma silent_handled t : Forall silent t -> handled t = [].
Proof.
  induction 1 as [|e t He _ IH]; [reflexivity |].
  unfold handled in *. cbn. rewrite IH.
  destruct e; try reflexivity; try contradiction.
  destruct m; try reflexivity; contradiction.
Qed.

Lemma silent_notified t : Forall silent t -> notified t = [].
Proof.
  induction 1 as [|e t He _ IH]; [reflexivity |].
  unfold notified in *. cbn. rewrite IH.
  destruct e; try reflexivity; contradiction.
Qed.

Lemma handled_app t1 t2 : handled (t1 ++ t2) = handled t1 ++ handled t2.
Proof. apply omap_app. Qed.

Lemma notified_app t1 t2 : notified (t1 ++ t2) = notified t1 ++ notified t2.
Proof. apply omap_app. Qed.

Lemma uncancelled_app l1 l2 :
  uncancelled (l1 ++ l2) = uncancelled l1 ++ uncancelled l2.
Proof. apply omap_app. Qed.

Lemma steady_emit e : silent e -> respects steady (emit e).
Proof.
  intros He w. split; [| reflexivity].
  eapply extends_intro; [reflexivity | now repeat constructor].
Qed.

Lemma steady_queueRequest request : respects steady (camera_queueRequest request).
Proof.
  intros w. unfold camera_queueRequest.
  destruct (if running w then _ else _); (split; [extends_now | reflexivity]).
Qed.

Lemma steady_reuse request flags : respects steady (request_reuse request flags).
Proof.
  intros w. unfold request_reuse. cbn.
  destruct (transition _ _ _); (split; [extends_now | reflexivity]).
Qed.

(** What [processRequest] does after its first line. *)
Lemma processRequest_steady request w :
  steady (set_trace (trace w ++ [Cout (MsgRequestCompleted request)]) w)
         (snd (processRequest request w)).
Proof.
  unfold processRequest, request_metadata, request_buffers, buffer_metadata.
  unfold cout at 1.
  match goal with |- context [bind (emit _) ?k] => set (rest := k tt) end.
  assert (Hrest : respects steady rest).
  { subst rest. unfold cout.
    respects_with
      ltac:(first [ apply steady_emit; exact I
                  | apply steady_reuse
                  | apply steady_queueRequest ]). }
  cbn [bind emit fst snd]. apply Hrest.
Qed.

(** A turn of the loop moves the oldest deferred call, if there is one,
    to the handled requests; the slot is not invoked. *)
Lemma loop_dispatch_moves w :
  let w' := snd (loop_dispatch w) in
  handled (trace w') ++ calls w' = handled (trace w) ++ calls w /\
  notified (trace w') = notified (trace w).
Proof.
  cbv zeta. unfold loop_dispatch.
  destruct (calls w) as [|request rest] eqn:Hcalls.
  - cbn [snd]. rewrite Hcalls. split; reflexivity.
  - destruct (processRequest_steady request (set_calls rest w))
      as [(t & Ht & Hs) Hc].
    cbn [trace calls set_trace set_calls] in Ht, Hc.
    rewrite Ht, Hc, !handled_app, !notified_app.
    rewrite (silent_handled t Hs), (silent_notified t Hs).
    cbn. rewrite !app_nil_r, <- app_assoc. split; reflexivity.
Qed.

(** The slot defers the request it is invoked for unless the request is
    cancelled, and handles nothing itself. *)
Lemma requestComplete_defers request w :
  let w' := snd (requestComplete request w) in
  handled (trace w') ++ calls w'
  = handled (trace w) ++ calls w ++ uncancelled (delivery request w) /\
  notified (trace w') = notified (trace w) ++ delivery request w.
Proof.
  cbv zeta. unfold requestComplete, delivery, loop_callLater.
  destruct (heap w !! request) as [r|] eqn:Hr.
  - destruct (Status_eqb (status r) RequestCancelled) eqn:Hst;
      cbn [bind emit modify value fst snd trace calls set_trace set_calls];
      rewrite ?handled_app, ?notified_app; cbn; rewrite ?Hst;
      rewrite ?app_nil_r; split; reflexivity.
  - cbn. rewrite !app_nil_r. split; reflexivity.
Qed.

(** The device's side of a completion or cancellation leaves the trace
    and the deferred calls alone. *)
Lemma device_complete_quiet request md fm w :
  trace (snd (device_complete request md fm w)) = trace w /\
  calls (snd (device_complete request md fm w)) = calls w.
Proof.
  unfold device_complete.
  destruct (transition _ request w), (heap w !! request); split; reflexivity.
Qed.

Lemma device_cancel_quiet request w :
  trace (snd (device_cancel request w)) = trace w /\
  calls (snd (device_cancel request w)) = calls w.
Proof.
  unfold device_cancel. destruct (transition _ request w); split; reflexivity.
Qed.

(** What a raised signal does to the handled and deferred requests. *)
Lemma signal_defers (request : RequestPtr) (w w1 : World) (rest : list LoopEvent)
    (w' : World) (arrived : list (RequestPtr * Status)) :
  trace w1 = trace w -> calls w1 = calls w ->
  handled (trace w') ++ calls w'
  = handled (trace (snd (requestComplete request w1))) ++
    calls (snd (requestComplete request w1)) ++ uncancelled arrived ->
  notified (trace w')
  = notified (trace (snd (requestComplete request w1))) ++ arrived ->
  handled (trace w') ++ calls w'
  = handled (trace w) ++ calls w ++ uncancelled (delivery request w1 ++ arrived) /\
  notified (trace w') = notified (trace w) ++ delivery request w1 ++ arrived.
Proof.
  intros Ht Hc H1 H2.
  destruct (requestComplete_defers request w1) as [D1 D2].
  rewrite Ht, Hc in D1. rewrite Ht in D2.
  rewrite uncancelled_app. split.
  - rewrite H1, app_assoc, D1, <- !app_assoc. reflexivity.
  - rewrite H2, D2, <- app_assoc. reflexivity.
Qed.

Lemma loop_run_in_order (events : list LoopEvent) : forall w,
  let w' := snd (loop_run events w) in
  handled (trace w') ++ calls w'
  = handled (trace w) ++ calls w ++ uncancelled (raised events w) /\
  notified (trace w') = notified (trace w) ++ raised events w.
Proof.
  cbv zeta.
  induction events as [|ev events IH]; intros w.
  - cbn. rewrite !app_nil_r. split; reflexivity.
  - destruct ev as [request md fm | request | | code]; cbn [loop_run raised bind].
    + destruct (device_complete_quiet request md fm w) as [Ht Hc].
      destruct (fst (device_complete request md fm w)); cbn [value snd].
      * destruct (IH (snd (requestComplete request
                             (snd (device_complete request md fm w))))) as [H1 H2].
        now apply (signal_defers request w _ events).
      * destruct (IH (snd (device_complete request md fm w))) as [H1 H2].
        rewrite Ht, Hc in H1. rewrite Ht in H2. split; assumption.
    + destruct (device_cancel_quiet request w) as [Ht Hc].
      destruct (fst (device_cancel request w)); cbn [value snd].
      * destruct (IH (snd (requestComplete request
                             (snd (device_cancel request w))))) as [H1 H2].
        now apply (signal_defers request w _ events).
      * destruct (IH (snd (device_cancel request w))) as [H1 H2].
        rewrite Ht, Hc in H1. rewrite Ht in H2. split; assumption.
    + destruct (IH (snd (loop_dispatch w))) as [H1 H2].
      destruct (loop_dispatch_moves w) as [M1 M2].
      split.
      * rewrite H1, app_assoc, M1, <- app_assoc. reflexivity.
      * rewrite H2, M2. reflexivity.
    + cbn. rewrite !app_nil_r. split; reflexivity.
Qed.

(** C6, as stated, fails: the device raises a notification for a request
    it cancelled, and that notification is never handled, although the
    loop runs all it has. *)
Lemma notification_order_counterexample :
  ~ handles_every_notification [DeviceCancels 0%nat; Dispatch] world_in_flight.
Proof.
  intros H. specialize (H eq_refl). vm_compute in H. discriminate H.
Qed.

(** C6 (amended): whatever the device and the loop do, and in whatever
    interleaving, the requests handled so far followed by the requests
    still deferred are what they were before, followed by the requests of
    the notifications the device raised that were not delivered in the
    cancelled state, in their order of arrival: [processRequest] is
    invoked once for each of those, in order, none is skipped and none
    handled twice; the notifications of cancelled requests are dropped by
    the slot.  Once nothing is deferred, all of them have been handled.
    The slot itself is invoked once for each notification raised, with
    the request in the state it was delivered in. *)
Theorem loop_handles_accepted_in_order (events : list LoopEvent) (w : World) :
  let w' := snd (loop_run events w) in
  handled (trace w') ++ calls w'
  = handled (trace w) ++ calls w ++ uncancelled (raised events w) /\
  (calls w' = [] ->
   handled (trace w')
   = handled (trace w) ++ calls w ++ uncancelled (raised events w)) /\
  notified (trace w') = notified (trace w) ++ raised events w.
Proof.
  cbv zeta. destruct (loop_run_in_order events w) as [H1 H2].
  split; [exact H1 |]. split; [| exact H2].
  intros Hc. rewrite Hc, app_nil_r in H1. exact H1.
Qed.

Lemma loop_handles_accepted_in_order_witness :
  let events := [DeviceCompletes 1%nat [(1%nat, "v")] frame;
                 DeviceCompletes 0%nat [] frame;
                 DeviceCancels 3%nat;
                 DeviceCompletes 2%nat [] frame;
                 Dispatch; Dispatch;
                 DeviceCompletes 1%nat [] frame;
                 Dispatch; Dispatch] in
  let w' := snd (loop_run events world_four_in_flight) in
  raised events world_four_in_flight
  = [(1%nat, Completed); (0%nat, Completed); (3%nat, RequestCancelled);
     (2%nat, Completed); (1%nat, Completed)] /\
  calls w' = [] /\
  handled (trace w') = [1%nat; 0%nat; 2%nat; 1%nat] /\
  map fst (notified (trace w')) = [1%nat; 0%nat; 3%nat; 2%nat; 1%nat].
Proof.
  intros events w'.
  destruct (loop_handles_accepted_in_order events world_four_in_flight)
    as (_ & Hdone & Hslot).
  assert (Hc : calls w' = []) by (vm_compute; reflexivity).
  split; [vm_compute; reflexivity |]. split; [exact Hc |]. split.
  - etrans; [exact (Hdone Hc) |]. vm_compute. reflexivity.
  - etrans; [exact (f_equal (map fst) Hslot) |]. vm_compute. reflexivity.
Defined.

(** ** The completion cycle *)

Lemma transition_some f request w r r' :
  heap w !! request = Some r -> f r = Some r' ->
  transition f request w = Some (<[request := r']> (heap w)).
Proof. intros Hr Hf. unfold transition. now rewrite Hr, Hf. Qed.

Lemma for_each_frames (bufs : list (Stream * FrameBuffer)) w :
  for_each bufs
    (fun bufferPair =>
       let buffer := snd bufferPair in
       metadata <- buffer_metadata buffer ;;
       cout (MsgBuffer (sequence metadata) (timestamp metadata) (planes metadata))) w
  = (tt, set_trace
           (trace w ++
            map (fun bp => frame_line (default no_frame
                                         (lookup_stream (snd bp) (frames w)))) bufs)
           w).
Proof.
  revert w. induction bufs as [|bp bufs IH]; intros w.
  - cbn. rewrite app_nil_r. now destruct w.
  - cbn [for_each bind]. rewrite IH. unfold buffer_metadata, cout.
    cbn [bind get emit fst snd frames trace set_trace map].
    rewrite <- app_assoc. reflexivity.
Qed.

(** [processRequest] on a completed request of a running camera. *)
Lemma processRequest_completed w request r :
  heap w !! request = Some r -> status r = Completed -> running w = true ->
  processRequest request w
  = (tt,
     set_trace
       (trace w ++
        [Cout (MsgRequestCompleted request)] ++
        map (fun ctrl => Cout (MsgControl (fst ctrl) (snd ctrl))) (metadata r) ++
        map (fun bp => frame_line (default no_frame
                                     (lookup_stream (snd bp) (frames w)))) (buffers r) ++
        [RequestReuse request ReuseBuffers; CameraQueueRequest request 0])
       (set_in_flight (in_flight w ++ [request])
          (set_heap (<[request := {| status := Queued; buffers := buffers r;
                                     metadata := [] |}]> (heap w)) w))).
Proof.
  intros Hr Hst Hrun.
  assert (Hlt : (request < length (heap w))%nat) by (eapply lookup_lt_Some; eassumption).
  unfold processRequest.
  unfold cout at 1, request_metadata, request_buffers.
  cbn [bind emit get fst snd heap set_trace]. rewrite Hr.
  rewrite (for_each_cout (fun ctrl => MsgControl (fst ctrl) (snd ctrl))).
  cbn [fst snd heap set_trace]. rewrite Hr.
  rewrite for_each_frames. cbn [fst snd frames trace set_trace].
  unfold request_reuse. cbn [bind emit modify fst snd].
  rewrite (transition_some _ request _ r
             {| status := Idle; buffers := buffers r; metadata := [] |});
    [| exact Hr | unfold RequestTracker.reuse; now rewrite Hst].
  unfold camera_queueRequest.
  cbn [running heap trace in_flight set_trace set_heap].
  rewrite Hrun.
  rewrite (transition_some _ request _
             {| status := Idle; buffers := buffers r; metadata := [] |}
             {| status := Queued; buffers := buffers r; metadata := [] |});
    [| cbn [heap set_heap]; now apply list_lookup_insert_eq | reflexivity].
  cbn [heap in_flight trace set_heap set_trace set_in_flight value fst snd].
  rewrite list_insert_insert_eq, <- !app_assoc. reflexivity.
Qed.

Lemma device_complete_queued w request r md fm :
  heap w !! request = Some r -> status r = Queued ->
  device_complete request md fm w
  = (true,
     set_frames (map (fun sb => (snd sb, fm)) (buffers r) ++ frames w)
       (set_in_flight (filter (fun x => x <> request) (in_flight w))
          (set_heap (<[request := {| status := Completed; buffers := buffers r;
                                     metadata := md |}]> (heap w)) w))).
Proof.
  intros Hr Hst. unfold device_complete.
  rewrite (transition_some _ request w r
             {| status := Completed; buffers := buffers r; metadata := md |});
    [| exact Hr | unfold RequestTracker.onCompleted; now rewrite Hst].
  now rewrite Hr.
Qed.

(** The state machine alone: an idle request that is submitted,
    completed and reused with its buffers kept is the request it was. *)
Lemma tracker_cycle (r : Request) (md : MetadataList) :
  status r = Idle -> metadata r = [] ->
  (RequestTracker.submit r ≫= RequestTracker.onCompleted md)
    ≫= RequestTracker.reuse ReuseBuffers
  = Some r.
Proof.
  destruct r as [st bufs m]. cbn. intros -> ->. reflexivity.
Qed.

(** ** One request per buffer *)

Lemma keeps_buffers_refl w : keeps_buffers w w.
Proof. reflexivity. Qed.

Lemma keeps_buffers_trans a b c :
  keeps_buffers a b -> keeps_buffers b c -> keeps_buffers a c.
Proof. unfold keeps_buffers. congruence. Qed.

#[local] Hint Resolve keeps_buffers_refl keeps_buffers_trans : world.

Lemma transition_keeps_buffers f request w h :
  (forall r r', f r = Some r' -> buffers r' = buffers r) ->
  transition f request w = Some h ->
  map buffers h = map buffers (heap w).
Proof.
  intros Hf. unfold transition.
  destruct (heap w !! request) as [r|] eqn:Hr; [| discriminate].
  destruct (f r) as [r'|] eqn:Hfr; [| discriminate].
  intros [= <-]. change (map buffers ?l) with (buffers <$> l).
  rewrite list_fmap_insert. apply list_insert_id.
  rewrite list_lookup_fmap. etrans; [apply (f_equal (fmap buffers) Hr) |].
  cbn. f_equal. symmetry. now apply Hf.
Qed.

Lemma submit_buffers r r' : RequestTracker.submit r = Some r' -> buffers r' = buffers r.
Proof. unfold RequestTracker.submit. destruct (status r); now intros [= <-]. Qed.

Lemma reuse_buffers r r' :
  RequestTracker.reuse ReuseBuffers r = Some r' -> buffers r' = buffers r.
Proof. unfold RequestTracker.reuse. destruct (status r); now intros [= <-]. Qed.

Lemma onCompleted_buffers md r r' :
  RequestTracker.onCompleted md r = Some r' -> buffers r' = buffers r.
Proof. unfold RequestTracker.onCompleted. destruct (status r); now intros [= <-]. Qed.

Lemma onCancelled_buffers r r' :
  RequestTracker.onCancelled r = Some r' -> buffers r' = buffers r.
Proof. unfold RequestTracker.onCancelled. destruct (status r); now intros [= <-]. Qed.

Lemma keeps_buffers_emit e : respects keeps_buffers (emit e).
Proof. intros w. reflexivity. Qed.

Lemma keeps_buffers_queueRequest request :
  respects keeps_buffers (camera_queueRequest request).
Proof.
  intros w. unfold camera_queueRequest, keeps_buffers.
  destruct (running w); [| reflexivity].
  destruct (transition _ request w) as [h|] eqn:Ht; [| reflexivity].
  cbn. eapply transition_keeps_buffers; [| exact Ht]. apply submit_buffers.
Qed.

Lemma keeps_buffers_reuse request :
  respects keeps_buffers (request_reuse request ReuseBuffers).
Proof.
  intros w. unfold request_reuse, keeps_buffers. cbn [bind emit modify fst snd].
  destruct (transition _ request _) as [h|] eqn:Ht; [| reflexivity].
  cbn. eapply transition_keeps_buffers in Ht; [exact Ht | apply reuse_buffers].
Qed.

Lemma keeps_buffers_processRequest request :
  respects keeps_buffers (processRequest request).
Proof.
  unfold processRequest, cout, request_metadata, request_buffers, buffer_metadata.
  respects_with
    ltac:(first [ apply keeps_buffers_emit
                | apply keeps_buffers_reuse
                | apply keeps_buffers_queueRequest ]).
Qed.

Lemma keeps_buffers_requestComplete request :
  respects keeps_buffers (requestComplete request).
Proof.
  intros w. unfold requestComplete, loop_callLater.
  destruct (heap w !! request) as [r|]; [| reflexivity].
  destruct (Status_eqb (status r) RequestCancelled) eqn:Hst;
    cbn; rewrite ?Hst; reflexivity.
Qed.

Lemma keeps_buffers_dispatch : respects keeps_buffers loop_dispatch.
Proof.
  intros w. unfold loop_dispatch. destruct (calls w) as [|request rest].
  - reflexivity.
  - apply (keeps_buffers_processRequest request (set_calls rest w)).
Qed.

Lemma keeps_buffers_device_complete request md fm :
  respects keeps_buffers (device_complete request md fm).
Proof.
  intros w. unfold device_complete, keeps_buffers.
  destruct (transition _ request w) as [h|] eqn:Ht; [| reflexivity].
  destruct (heap w !! request); [| reflexivity].
  cbn. eapply transition_keeps_buffers; [| exact Ht]. apply onCompleted_buffers.
Qed.

Lemma keeps_buffers_device_cancel request :
  respects keeps_buffers (device_cancel request).
Proof.
  intros w. unfold device_cancel, keeps_buffers.
  destruct (transition _ request w) as [h|] eqn:Ht; [| reflexivity].
  cbn. eapply transition_keeps_buffers; [| exact Ht]. apply onCancelled_buffers.
Qed.

Lemma keeps_buffers_loop_run events : respects keeps_buffers (loop_run events).
Proof.
  induction events as [|ev events IH]; [intros w; reflexivity |].
  destruct ev as [request md fm | request | | code]; cbn [loop_run].
  - apply respects_bind; eauto with world; [apply keeps_buffers_device_complete |].
    intros [|]; apply respects_bind; eauto with world.
    + apply keeps_buffers_requestComplete.
    + apply respects_value; eauto with world.
  - apply respects_bind; eauto with world; [apply keeps_buffers_device_cancel |].
    intros [|]; apply respects_bind; eauto with world.
    + apply keeps_buffers_requestComplete.
    + apply respects_value; eauto with world.
  - apply respects_bind; eauto with world. apply keeps_buffers_dispatch.
  - intros w. reflexivity.
Qed.

Lemma keeps_buffers_clean_up s : respects keeps_buffers (clean_up s).
Proof. intros w. reflexivity. Qed.

Lemma camera_queueRequest_idle w request r :
  running w = true -> heap w !! request = Some r -> status r = Idle ->
  camera_queueRequest request w
  = (0, set_trace (trace w ++ [CameraQueueRequest request 0])
          (set_in_flight (in_flight w ++ [request])
             (set_heap (<[request := {| status := Queued; buffers := buffers r;
                                        metadata := metadata r |}]> (heap w)) w))).
Proof.
  intros Hrun Hr Hst. unfold camera_queueRequest. rewrite Hrun.
  rewrite (transition_some _ request w r
             {| status := Queued; buffers := buffers r; metadata := metadata r |});
    [reflexivity | exact Hr |].
  unfold RequestTracker.submit. now rewrite Hst.
Qed.

(** Queueing idle requests, each once: the camera takes them all. *)
Lemma queue_all (requests : list RequestPtr) : forall w,
  running w = true -> NoDup requests ->
  (forall request, In request requests ->
     exists r, heap w !! request = Some r /\ status r = Idle) ->
  let w' := snd (for_each requests
                   (fun request => camera_queueRequest request >> value tt) w) in
  trace w' = trace w ++ map (fun request => CameraQueueRequest request 0) requests /\
  in_flight w' = in_flight w ++ requests.
Proof.
  induction requests as [|request requests IH]; intros w Hrun Hnd Hidle.
  - cbn. now rewrite !app_nil_r.
  - cbv zeta. cbn [for_each bind].
    destruct (Hidle request (or_introl eq_refl)) as (r & Hr & Hst).
    rewrite (camera_queueRequest_idle w request r Hrun Hr Hst).
    cbn [value fst snd].
    apply NoDup_cons in Hnd as [Hnotin Hnd].
    match goal with |- context [for_each requests _ ?w1] =>
      specialize (IH w1 Hrun Hnd); cbv zeta in IH
    end.
    destruct IH as [Ht Hf].
    + intros request' Hin.
      destruct (Hidle request' (or_intror Hin)) as (r' & Hr' & Hst').
      exists r'. split; [| exact Hst'].
      cbn [heap set_trace set_in_flight set_heap].
      rewrite list_lookup_insert_ne; [exact Hr' |].
      intros ->. apply Hnotin. now apply list_elem_of_In.
    + rewrite Ht, Hf. cbn [trace in_flight set_trace set_in_flight set_heap map].
      now rewrite <- !app_assoc.
Qed.

(** The trace of the capture phase on freshly built requests. *)
Lemma capture_trace env s requests w :
  NoDup requests ->
  (forall request, In request requests ->
     exists r, heap w !! request = Some r /\ status r = Idle) ->
  exists t,
    trace (snd (capture env s requests w))
    = trace w ++ [CameraStart] ++
      map (fun request => CameraQueueRequest request 0) requests ++
      [LoopTimeout TIMEOUT_SEC; LoopExec] ++ t.
Proof.
  intros Hnd Hidle.
  set (tail := bind (loop_run (script env))
                 (fun ret => cout (MsgCaptureRan TIMEOUT_SEC ret) >>
                             clean_up s >> value EXIT_SUCCESS)).
  assert (Htail : respects (extends unfailing) tail).
  { subst tail. unfold cout.
    apply respects_bind; eauto with world; [apply loop_run_unfailing |].
    intros ret. apply respects_bind; eauto with world; [now apply emit_unfailing |].
    intros _. apply respects_bind; eauto with world; [apply clean_up_unfailing |].
    intros _. apply respects_value; eauto with world. }
  unfold capture, start_capture, camera_start, loop_timeout, loop_exec.
  cbn [bind emit modify fst snd].
  match goal with |- context [for_each requests ?body ?w1] =>
    destruct (queue_all requests w1 eq_refl Hnd) as [Ht Hf];
      [exact Hidle |]; set (wq := snd (for_each requests body w1)) in *
  end.
  clearbody wq.
  match goal with |- context [loop_run (script env) ?w3] =>
    destruct (Htail w3) as (t & Htr & _); exists t;
      change (trace (snd (tail w3)) = trace w3 ++ t) in Htr
  end.
  subst tail. unfold cout in Htr. cbn [bind emit fst snd] in Htr.
  etrans; [exact Htr |].
  cbn [trace set_trace set_running]. rewrite Ht.
  cbn [trace set_trace set_running]. now rewrite <- !app_assoc.
Qed.

Lemma keeps_buffers_modify (f : World -> World) :
  (forall w, heap (f w) = heap w) -> respects keeps_buffers (modify f).
Proof. intros Hf w. unfold keeps_buffers. cbn. now rewrite Hf. Qed.

Lemma keeps_buffers_start_capture requests :
  respects keeps_buffers (start_capture requests).
Proof.
  unfold start_capture, camera_start.
  apply respects_bind; eauto with world.
  - apply respects_bind; eauto with world; [apply keeps_buffers_emit |].
    intros _. now apply keeps_buffers_modify.
  - intros _. apply respects_for_each; eauto with world.
    intros request. apply respects_bind; eauto with world.
    + apply keeps_buffers_queueRequest.
    + intros _. apply respects_value; eauto with world.
Qed.

Lemma keeps_buffers_capture env s requests :
  respects keeps_buffers (capture env s requests).
Proof.
  unfold capture, loop_timeout, loop_exec, cout.
  apply respects_bind; eauto with world; [apply keeps_buffers_start_capture |].
  intros _. apply respects_bind; eauto with world; [apply keeps_buffers_emit |].
  intros _. apply respects_bind; eauto with world.
  { apply respects_bind; eauto with world; [apply keeps_buffers_emit |].
    intros _. apply keeps_buffers_loop_run. }
  intros ret. apply respects_bind; eauto with world; [apply keeps_buffers_emit |].
  intros _. apply respects_bind; eauto with world; [apply keeps_buffers_clean_up |].
  intros _. apply respects_value; eauto with world.
Qed.

Lemma built_idle s (bufs : list FrameBuffer) request :
  In request (seq 0 (length bufs)) ->
  exists r, map (built s) bufs !! request = Some r /\ status r = Idle.
Proof.
  intros Hin. apply in_seq in Hin as [_ Hlt].
  destruct (lookup_lt_is_Some_2 bufs request) as [b Hb]; [exact Hlt |].
  exists (built s b). split; [| reflexivity].
  change (map (built s) bufs) with (built s <$> bufs).
  rewrite list_lookup_fmap. etrans; [apply (f_equal (fmap (built s)) Hb) |].
  reflexivity.
Qed.

(** C5: when the set-up succeeds and the first stream has N buffers, N
    requests exist, the i-th holding exactly the i-th buffer of that
    stream and nothing else; after the camera is started they are queued,
    each once and in order, and the camera accepts each. *)
Theorem main_builds_one_request_per_buffer (env : Env) :
  fst (main env) = EXIT_SUCCESS ->
  let s := stream (fst (configuration env)) in
  let bufs := exported env s in
  let w := snd (main env) in
  length (heap w) = length bufs /\
  map buffers (heap w) = map (fun b => [(s, b)]) bufs /\
  exists t1 t2,
    trace w
    = t1 ++ [CameraStart] ++
      map (fun request => CameraQueueRequest request 0) (seq 0 (length bufs)) ++
      [LoopTimeout TIMEOUT_SEC; LoopExec] ++ t2
    /\ Forall quiet t1.
Proof.
  intros Hok. cbv zeta.
  destruct (cameras env) as [|first rest] eqn:Hcams.
  { rewrite (main_without_cameras env Hcams) in Hok. discriminate Hok. }
  rewrite (main_session env first rest Hcams) in *.
  destruct (session_outcome env first (listed env))
    as [(Hst & _) | (w1 & Hr & Hext & Hheap & _)].
  { rewrite Hst in Hok. discriminate Hok. }
  change (length (heap (listed env))) with 0%nat in Hr.
  change (heap (listed env)) with (@nil Request) in Hheap. cbn [app] in Hheap.
  rewrite Hr.
  set (s := stream (fst (configuration env))) in *.
  set (bufs := exported env s) in *.
  pose proof (keeps_buffers_capture env s (seq 0 (length bufs)) w1) as Hkeep.
  unfold keeps_buffers in Hkeep. rewrite Hheap, map_map in Hkeep.
  cbn [built buffers] in Hkeep.
  split; [| split].
  - rewrite <- (length_map buffers), Hkeep. apply length_map.
  - exact Hkeep.
  - destruct (capture_trace env s (seq 0 (length bufs)) w1) as (t2 & Ht2).
    + apply NoDup_ListNoDup, seq_NoDup.
    + intros request Hin. rewrite Hheap. now apply built_idle.
    + destruct Hext as (t1 & Ht1 & Hq1).
      exists (trace (listed env) ++ t1), t2. split.
      * rewrite Ht2, Ht1. reflexivity.
      * apply Forall_app. split; [apply listed_trace_quiet | exact Hq1].
Qed.

Lemma main_builds_one_request_per_buffer_witness :
  let env := env_of [DeviceCompletes 1%nat [(1%nat, "v")] frame; Dispatch] in
  let s := stream (fst (configuration env)) in
  let bufs := exported env s in
  let w := snd (main env) in
  length (heap w) = length bufs /\
  map buffers (heap w) = map (fun b => [(s, b)]) bufs /\
  exists t1 t2,
    trace w
    = t1 ++ [CameraStart] ++
      map (fun request => CameraQueueRequest request 0) (seq 0 (length bufs)) ++
      [LoopTimeout TIMEOUT_SEC; LoopExec] ++ t2
    /\ Forall quiet t1.
Proof.
  apply (main_builds_one_request_per_buffer
           (env_of [DeviceCompletes 1%nat [(1%nat, "v")] frame; Dispatch])).
  vm_compute. reflexivity.
Defined.

(** * Further properties of the code *)

Import Further.

(** ** [cameraName] *)

Section MoreNaming.

#[local] Arguments String.append !_ _ / : simpl nomatch.

Lemma length_append (a b : string) :
  String.length (a +:+ b) = (String.length a + String.length b)%nat.
Proof. induction a as [|x a IH]; simpl; [reflexivity | now rewrite IH]. Qed.

Lemma append_cancel_r (a b c : string) : a +:+ c = b +:+ c -> a = b.
Proof.
  revert b. induction a as [|x a IH]; intros [|y b] H; simpl in H.
  - reflexivity.
  - apply (f_equal String.length) in H. simpl in H. rewrite length_append in H. lia.
  - apply (f_equal String.length) in H. simpl in H. rewrite length_append in H. lia.
  - injection H as -> H. f_equal. now apply IH.
Qed.

(** X1: the Model property matters only for external cameras: for any
    other location, or none, the name is the same whatever the model. *)
Theorem cameraName_ignores_model (camera : Camera) (model : option string) :
  Location (properties camera) <> Some CameraLocationExternal ->
  cameraName (with_model model camera) = cameraName camera.
Proof.
  intros HL. unfold cameraName, with_model. cbn [id properties Location Model].
  destruct (Location (properties camera)) as [l|]; [| reflexivity].
  destruct (Z.eqb l CameraLocationFront); [reflexivity |].
  destruct (Z.eqb l CameraLocationBack); [reflexivity |].
  destruct (Z.eqb l CameraLocationExternal) eqn:E; [| reflexivity].
  apply Z.eqb_eq in E. subst l. contradiction.
Qed.

Lemma cameraName_ignores_model_witness :
  cameraName (with_model (Some "Sensor X") nameless) = cameraName nameless.
Proof.
  apply (cameraName_ignores_model nameless (Some "Sensor X")). discriminate.
Defined.

(** X2: the [switch] has no [default]: a Location value that is none of
    the three enumerators gives the name of a camera without Location,
    the id in parentheses after a space, whatever the model. *)
Theorem cameraName_without_default (camera : Camera) (location : Z) :
  Location (properties camera) = Some location ->
  location <> CameraLocationFront ->
  location <> CameraLocationBack ->
  location <> CameraLocationExternal ->
  cameraName camera = " (" +:+ id camera +:+ ")".
Proof.
  intros HL H0 H1 H2. unfold cameraName. rewrite HL.
  apply Z.eqb_neq in H0, H1, H2. now rewrite H0, H1, H2.
Qed.

Lemma cameraName_without_default_witness :
  cameraName {| id := "x";
                properties := {| Location := Some 7; Model := Some "m" |} |}
  = " (x)".
Proof.
  apply (cameraName_without_default
           {| id := "x"; properties := {| Location := Some 7; Model := Some "m" |} |}
           7 eq_refl); discriminate.
Defined.

(** X3: two cameras with the same properties and the same name have the
    same id: appending the id keeps the names of like cameras apart. *)
Theorem cameraName_tells_ids_apart (c1 c2 : Camera) :
  properties c1 = properties c2 ->
  cameraName c1 = cameraName c2 ->
  id c1 = id c2.
Proof.
  intros Hp Hn. unfold cameraName in Hn. rewrite Hp in Hn.
  apply (inj (String.append _)) in Hn.
  apply (inj (String.append " (")) in Hn.
  now apply append_cancel_r in Hn.
Qed.

Lemma cameraName_tells_ids_apart_witness :
  id external_pro = id (with_model (Some "External camera Pro") external_pro).
Proof.
  apply (cameraName_tells_ids_apart external_pro
           (with_model (Some "External camera Pro") external_pro));
    reflexivity.
Defined.

End MoreNaming.

(** ** The slot and the handler *)

(** X4: the slot does no work of its own: whatever the request and its
    state, [requestComplete] leaves every request, the camera, its queue
    and the allocator as they are; at most it puts this one request
    behind the calls already deferred, and it does so whenever the
    request is not cancelled. *)
Theorem requestComplete_defers_only (w : World) (request : RequestPtr) :
  let w' := snd (requestComplete request w) in
  heap w' = heap w /\ in_flight w' = in_flight w /\
  allocated w' = allocated w /\ frames w' = frames w /\
  acquired w' = acquired w /\ running w' = running w /\
  (calls w' = calls w \/ calls w' = calls w ++ [request]) /\
  (forall r, heap w !! request = Some r -> status r <> RequestCancelled ->
             calls w' = calls w ++ [request]).
Proof.
  cbv zeta. unfold requestComplete, loop_callLater.
  destruct (heap w !! request) as [r|] eqn:Hr.
  - destruct (Status_eqb (status r) RequestCancelled) eqn:Hst;
      cbn; rewrite ?Hst; cbn.
    + repeat (split; [reflexivity |]). split; [now left |].
      intros r' [= <-] Hne. destruct (status r); try discriminate Hst.
      now contradiction Hne.
    + repeat (split; [reflexivity |]). split; [now right |]. reflexivity.
  - cbn. repeat (split; [reflexivity |]). split; [now left |]. discriminate.
Qed.

Lemma requestComplete_defers_only_witness :
  let w := set_calls [5%nat] world_in_flight in
  let w' := snd (requestComplete 0%nat w) in
  heap w' = heap w /\ in_flight w' = in_flight w /\
  allocated w' = allocated w /\ frames w' = frames w /\
  acquired w' = acquired w /\ running w' = running w /\
  (calls w' = calls w \/ calls w' = calls w ++ [0%nat]) /\
  calls w' = calls w ++ [0%nat].
Proof.
  destruct (requestComplete_defers_only (set_calls [5%nat] world_in_flight) 0%nat)
    as (H1 & H2 & H3 & H4 & H5 & H6 & H7 & H8).
  repeat (split; [assumption |]).
  apply (H8 _ eq_refl). discriminate.
Defined.

(** [processRequest] up to its last two calls. *)
Lemma processRequest_prints w request r :
  heap w !! request = Some r ->
  processRequest request w
  = (tt, snd (camera_queueRequest request
                (snd (request_reuse request ReuseBuffers
                        (set_trace (trace w ++ printed w request r) w))))).
Proof.
  intros Hr. unfold processRequest, printed.
  unfold cout at 1, request_metadata, request_buffers.
  cbn [bind emit get fst snd heap set_trace]. rewrite Hr.
  rewrite (for_each_cout (fun ctrl => MsgControl (fst ctrl) (snd ctrl))).
  cbn [fst snd heap set_trace]. rewrite Hr.
  rewrite for_each_frames. cbn [fst snd frames trace set_trace value].
  rewrite <- !app_assoc. reflexivity.
Qed.

Lemma request_reuse_outcome w request flags :
  let w' := snd (request_reuse request flags w) in
  trace w' = trace w ++ [RequestReuse request flags] /\
  calls w' = calls w /\ allocated w' = allocated w /\ frames w' = frames w /\
  in_flight w' = in_flight w /\ running w' = running w /\ acquired w' = acquired w.
Proof.
  cbv zeta. unfold request_reuse. cbn [bind emit modify fst snd].
  destruct (transition _ request _); repeat split.
Qed.

Lemma camera_queueRequest_outcome w request :
  let w' := snd (camera_queueRequest request w) in
  let ret := fst (camera_queueRequest request w) in
  trace w' = trace w ++ [CameraQueueRequest request ret] /\
  (ret = 0 \/ ret = - EINVAL) /\
  calls w' = calls w /\ allocated w' = allocated w /\ frames w' = frames w /\
  running w' = running w /\ acquired w' = acquired w.
Proof.
  cbv zeta. unfold camera_queueRequest.
  destruct (if running w then _ else _); cbn; repeat split; auto.
Qed.

(** X5: the handler does not look at the state of its request: whatever
    it is, [processRequest] prints the "Request completed" line, one line
    for each metadata entry and one for each bound buffer, in their
    order, then calls [reuse(ReuseBuffers)] and [queueRequest] once each,
    and ignores what [queueRequest] returns; the deferred calls, the
    allocator and the frame metadata are left alone. *)
Theorem processRequest_always_requeues (w : World) (request : RequestPtr)
    (r : Request) :
  heap w !! request = Some r ->
  let w' := snd (processRequest request w) in
  (exists ret,
     trace w'
     = trace w ++ printed w request r ++
       [RequestReuse request ReuseBuffers; CameraQueueRequest request ret]
     /\ (ret = 0 \/ ret = - EINVAL)) /\
  calls w' = calls w /\ allocated w' = allocated w /\ frames w' = frames w /\
  running w' = running w /\ acquired w' = acquired w.
Proof.
  intros Hr. cbv zeta. rewrite (processRequest_prints w request r Hr). cbn [snd].
  set (w1 := set_trace (trace w ++ printed w request r) w).
  destruct (request_reuse_outcome w1 request ReuseBuffers)
    as (Ht2 & Hc2 & Ha2 & Hf2 & _ & Hr2 & Hq2).
  set (w2 := snd (request_reuse request ReuseBuffers w1)) in *. clearbody w2.
  destruct (camera_queueRequest_outcome w2 request)
    as (Ht3 & Hret & Hc3 & Ha3 & Hf3 & Hr3 & Hq3).
  split.
  - exists (fst (camera_queueRequest request w2)). split; [| exact Hret].
    rewrite Ht3, Ht2. subst w1. cbn [trace set_trace].
    now rewrite <- !app_assoc.
  - rewrite Hc3, Hc2, Ha3, Ha2, Hf3, Hf2, Hr3, Hr2, Hq3, Hq2. repeat split.
Qed.

Lemma processRequest_always_requeues_witness :
  let w' := snd (processRequest 0%nat world_cancelled) in
  (exists ret,
     trace w'
     = trace world_cancelled ++
       printed world_cancelled 0%nat
         {| status := RequestCancelled; buffers := [(0%nat, 10%nat)]; metadata := [] |} ++
       [RequestReuse 0%nat ReuseBuffers; CameraQueueRequest 0%nat ret]
     /\ (ret = 0 \/ ret = - EINVAL)) /\
  calls w' = calls world_cancelled /\ allocated w' = allocated world_cancelled /\
  frames w' = frames world_cancelled /\
  running w' = running world_cancelled /\ acquired w' = acquired world_cancelled.
Proof.
  exact (processRequest_always_requeues world_cancelled 0%nat _ eq_refl).
Defined.

Lemma apart_refl request w : apart request w w.
Proof. split; [intros other _; reflexivity | reflexivity]. Qed.

Lemma apart_trans request a b c :
  apart request a b -> apart request b c -> apart request a c.
Proof.
  intros [E1 L1] [E2 L2]. split; [| congruence].
  intros other Hne. rewrite (E2 other Hne). now apply E1.
Qed.

#[local] Hint Resolve apart_refl apart_trans : world.

Lemma transition_apart f request w h :
  transition f request w = Some h ->
  (forall other, other <> request -> h !! other = heap w !! other) /\
  length h = length (heap w).
Proof.
  unfold transition. destruct (heap w !! request) as [r|]; [| discriminate].
  destruct (f r) as [r'|]; [| discriminate]. intros [= <-]. split.
  - intros other Hne. now apply list_lookup_insert_ne.
  - apply length_insert.
Qed.

Ltac apart_same := split; [intros ? _; reflexivity | reflexivity].

Lemma apart_emit request e : respects (apart request) (emit e).
Proof. intros w. apart_same. Qed.

Lemma apart_reuse request flags :
  respects (apart request) (request_reuse request flags).
Proof.
  intros w. unfold request_reuse. cbn [bind emit modify fst snd].
  destruct (transition _ request _) as [h|] eqn:Ht; [| apart_same].
  apply transition_apart in Ht as [He Hl]. split; [exact He | exact Hl].
Qed.

Lemma apart_queueRequest request :
  respects (apart request) (camera_queueRequest request).
Proof.
  intros w. unfold camera_queueRequest.
  destruct (running w); [| apart_same].
  destruct (transition _ request w) as [h|] eqn:Ht; [| apart_same].
  apply transition_apart in Ht as [He Hl]. split; [exact He | exact Hl].
Qed.

Lemma processRequest_apart request :
  respects (apart request) (processRequest request).
Proof.
  unfold processRequest, cout, request_metadata, request_buffers, buffer_metadata.
  respects_with
    ltac:(first [ apply apart_emit
                | apply apart_reuse
                | apply apart_queueRequest ]).
Qed.

(** X6: the handler touches no request but its own: after
    [processRequest request] every other request is exactly as it was,
    no request has appeared or gone, and every request, this one
    included, still has the buffers it had. *)
Theorem processRequest_touches_own_request (w : World) (request : RequestPtr) :
  let w' := snd (processRequest request w) in
  elsewhere request w w' /\
  length (heap w') = length (heap w) /\
  keeps_buffers w w'.
Proof.
  cbv zeta.
  destruct (processRequest_apart request w) as [He Hl].
  split; [exact He |]. split; [exact Hl |].
  apply keeps_buffers_processRequest.
Qed.

(** X7: [processRequest] does not check what [queueRequest] returns: on
    a camera that is not running, a completed request is reused (Idle,
    its buffers kept, its metadata cleared) and the refused
    [queueRequest] goes unnoticed: the request is not in flight, and the
    handler returns as usual. *)
Theorem processRequest_on_stopped_camera (w : World) (request : RequestPtr)
    (r : Request) :
  heap w !! request = Some r -> status r = Completed -> running w = false ->
  processRequest request w
  = (tt,
     set_trace
       (trace w ++ printed w request r ++
        [RequestReuse request ReuseBuffers; CameraQueueRequest request (- EINVAL)])
       (set_heap (<[request := {| status := Idle; buffers := buffers r;
                                  metadata := [] |}]> (heap w)) w)).
Proof.
  intros Hr Hst Hrun. rewrite (processRequest_prints w request r Hr).
  unfold request_reuse. cbn [bind emit modify fst snd].
  rewrite (transition_some _ request _ r
             {| status := Idle; buffers := buffers r; metadata := [] |});
    [| exact Hr | unfold RequestTracker.reuse; now rewrite Hst].
  unfold camera_queueRequest. cbn [running set_trace set_heap]. rewrite Hrun.
  cbn [snd trace set_trace set_heap]. now rewrite <- !app_assoc.
Qed.

Lemma processRequest_on_stopped_camera_witness :
  processRequest 0%nat
    (set_running false
       (set_heap [{| status := Completed; buffers := [(0%nat, 10%nat)];
                     metadata := [(1%nat, "v")] |}] world_cancelled))
  = (tt,
     set_trace
       [Cout (MsgRequestCompleted 0%nat); Cout (MsgControl 1 "v");
        Cout (MsgBuffer 0 0 []);
        RequestReuse 0%nat ReuseBuffers; CameraQueueRequest 0%nat (- EINVAL)]
       (set_running false
          (set_heap [{| status := Idle; buffers := [(0%nat, 10%nat)];
                        metadata := [] |}] world_cancelled))).
Proof.
  exact (processRequest_on_stopped_camera
           (set_running false
              (set_heap [{| status := Completed; buffers := [(0%nat, 10%nat)];
                            metadata := [(1%nat, "v")] |}] world_cancelled))
           0%nat _ eq_refl eq_refl eq_refl).
Defined.

(** ** [main] as a whole *)

Lemma session_split env first w :
  session env first w = after_configure env (snd (configure env first w)).
Proof. reflexivity. Qed.

Lemma create_requests_all_succeeded env s todo : forall requests w rs,
  fst (create_requests env s todo requests w) = inl rs ->
  forall i b, todo !! i = Some b ->
    createRequest env (length (heap w) + i)%nat = true /\
    0 <= addBuffer env (length (heap w) + i)%nat s b.
Proof.
  induction todo as [|buffer todo IH]; intros requests w rs Hok i b Hi.
  - discriminate Hi.
  - rewrite create_requests_cons in Hok. cbv zeta in Hok.
    destruct (createRequest env (length (heap w))) eqn:Hc; [| discriminate Hok].
    destruct (Z.ltb (addBuffer env (length (heap w)) s buffer) 0) eqn:Hret;
      [discriminate Hok |].
    destruct i as [|i].
    + injection Hi as <-. rewrite Nat.add_0_r. split; [exact Hc |].
      now apply Z.ltb_ge.
    + specialize (IH _ _ _ Hok i b Hi).
      cbn [heap set_trace set_heap] in IH. rewrite length_app in IH. cbn in IH.
      replace (length (heap w) + S i)%nat with (length (heap w) + 1 + i)%nat by lia.
      exact IH.
Qed.

Lemma after_configure_outcome env w :
  let s := stream (fst (configuration env)) in
  let bufs := exported env s in
  let r := after_configure env w in
  (fst r = EXIT_FAILURE /\ setup_failure env (length (heap w)) /\
   calm w (snd r) /\ exists t, trace (snd r) = trace w ++ t)
  \/
  (~ setup_failure env (length (heap w)) /\
   exists w2,
     r = capture env s (seq (length (heap w)) (length bufs))
           (set_trace (trace w2 ++ [SignalConnect]) w2) /\
     extends quiet w w2 /\
     heap w2 = heap w ++ map (built s) bufs /\
     calm w w2 /\
     lookup_stream s (allocated w2) = Some bufs).
Proof.
  cbv zeta. unfold after_configure, setup_failure. cbv zeta.
  set (config := fst (configuration env) :: snd (configuration env)).
  set (s := stream (fst (configuration env))).
  assert (Hs : In s (map stream config)) by now left.
  clearbody config.
  destruct (allocate_buffers_outcome env config w) as (Hcalm1 & Hheap1 & Hres1).
  cbn [bind]. set (r1 := allocate_buffers env config w) in *. clearbody r1.
  destruct r1 as [[code|] w1]; cbn [fst snd] in *.
  { left. destruct Hres1 as (-> & t & cfg & Ht & Hq & Hin & Hneg).
    cbn [value fst snd]. split; [reflexivity |]. split; [| split].
    - left. exists cfg. split; assumption.
    - exact Hcalm1.
    - eexists. exact Ht. }
  destruct Hres1 as (Hext1 & Hall & Hlook).
  unfold allocator_buffers. cbn [bind get fst snd].
  rewrite (Hlook s (or_introl Hs)).
  change (default [] (Some (exported env s))) with (exported env s).
  destruct (create_requests_outcome env s (exported env s) [] w1)
    as (Hcalm2 & Halloc2 & Hres2).
  pose proof (create_requests_all_succeeded env s (exported env s) [] w1) as Hsucc.
  set (r2 := create_requests env s (exported env s) [] w1) in *. clearbody r2.
  rewrite Hheap1 in Hres2, Hsucc.
  destruct r2 as [[requests|code] w2]; cbn [fst snd] in *.
  - right. destruct Hres2 as (Hext2 & -> & Hheap2). split.
    + intros [(cfg & Hin & Hneg) | (i & b & Hi & Hfail)].
      * rewrite Forall_forall in Hall. apply list_elem_of_In in Hin.
        specialize (Hall cfg Hin). cbv beta in Hall. lia.
      * destruct (Hsucc _ eq_refl i b Hi) as [Hc Ha].
        destruct Hfail as [Hf | Hf]; [congruence | lia].
    + exists w2. cbn [app bind emit fst snd].
      split; [reflexivity |]. split; [| split; [exact Hheap2 | split]].
      * eapply extends_trans; eassumption.
      * eapply calm_trans; eassumption.
      * rewrite Halloc2. apply (Hlook s (or_introl Hs)).
  - left. destruct Hres2 as (-> & (t & e & m & Ht & Hq & He) & (i & b & Hi & Hfail)).
    cbn [value fst snd]. split; [reflexivity |]. split; [| split].
    + right. exists i, b. split; assumption.
    + eapply calm_trans; eassumption.
    + destruct Hext1 as (t1 & Ht1 & _). eexists.
      rewrite Ht, Ht1, <- app_assoc. reflexivity.
Qed.

Lemma configure_trace env first w :
  exists t,
    trace (snd (configure env first w))
    = trace w ++ [CmGet (id first); CameraAcquire; CameraGenerateConfiguration] ++ t
    /\ Forall quiet t.
Proof.
  unfold configure, camera_acquire. cbv zeta.
  match goal with |- context [bind (emit CameraGenerateConfiguration) ?k] =>
    set (rest := k tt);
    change (bind (emit CameraGenerateConfiguration) k)
      with (bind (emit CameraGenerateConfiguration) (fun _ => rest))
  end.
  assert (Hrest : respects (output quiet) rest).
  { subst rest. unfold cout.
    respects_with
      ltac:(first [ apply output_emit_quiet; split; reflexivity
                  | apply print_configuration_output; intros; apply quiet_cout ]). }
  cbn [bind emit modify fst snd].
  match goal with |- context [rest ?w1] =>
    destruct (Hrest w1) as [(t & Ht & Hq) _]; set (w2 := snd (rest w1)) in *
  end.
  clearbody w2. clear Hrest. clearbody rest.
  cbn [trace set_trace set_acquired] in Ht.
  exists t. split; [| exact Hq]. rewrite Ht, <- !app_assoc. reflexivity.
Qed.

(** [main] with a camera at hand: where it stands once the camera is
    configured. *)
Lemma main_configured env first rest :
  cameras env = first :: rest ->
  exists w0 t,
    main env = after_configure env w0 /\
    w0 = set_trace (trace w0) (set_acquired true initial) /\
    trace w0 = trace (listed env) ++
               [CmGet (id first); CameraAcquire; CameraGenerateConfiguration] ++ t /\
    Forall quiet t.
Proof.
  intros Hcams. rewrite (main_session env first rest Hcams), session_split.
  destruct (configure_outcome env first (listed env)) as [_ Hw0].
  destruct (configure_trace env first (listed env)) as (t & Ht & Hq).
  exists (snd (configure env first (listed env))), t.
  split; [reflexivity |]. split; [exact Hw0 |]. split; [exact Ht | exact Hq].
Qed.

(** X8: the exit status of [main] is [EXIT_FAILURE] or [EXIT_SUCCESS] and
    nothing else; it is [EXIT_FAILURE] exactly when no camera is found or
    a set-up call is refused (an allocation for a configured stream, the
    creation of a request or the binding of a buffer of the first
    stream), and [EXIT_SUCCESS] otherwise. *)
Theorem main_status (env : Env) :
  (fst (main env) = EXIT_FAILURE /\ (cameras env = [] \/ setup_failure env 0))
  \/
  (fst (main env) = EXIT_SUCCESS /\ cameras env <> [] /\ ~ setup_failure env 0).
Proof.
  destruct (cameras env) as [|first rest] eqn:Hcams.
  { left. rewrite (main_without_cameras env Hcams). split; [reflexivity | now left]. }
  destruct (main_configured env first rest Hcams) as (w0 & t & Hmain & Hw0 & _).
  assert (Hlen : length (heap w0) = 0%nat) by now rewrite Hw0.
  rewrite Hmain.
  destruct (after_configure_outcome env w0) as [(Hst & Hfail & _) | (Hok & w2 & Hr & _)];
    rewrite Hlen in *.
  - left. split; [exact Hst | now right].
  - right. rewrite Hr. split; [reflexivity |]. split; [discriminate | exact Hok].
Qed.

Lemma lookup_remove_stream {A} (s : Stream) (l : list (Stream * A)) :
  lookup_stream s (remove_stream s l) = None.
Proof.
  induction l as [|[s' a] l IH]; [reflexivity |]. cbn.
  destruct (Nat.eqb s' s) eqn:E; [exact IH |]. cbn. now rewrite E.
Qed.

(** The capture phase ends with the clean-up. *)
Lemma capture_ends env s requests w :
  exists w3,
    capture env s requests w
    = (EXIT_SUCCESS,
       set_trace (trace w3 ++ cleaned s)
         (set_acquired false
            (set_allocated (remove_stream s (allocated w3))
               (set_running false w3)))) /\
    heap w3 = heap (snd (capture env s requests w)).
Proof.
  unfold capture.
  set (before := bind (start_capture requests)
                   (fun _ => bind (loop_timeout TIMEOUT_SEC)
                      (fun _ => bind (loop_exec env)
                         (fun ret => cout (MsgCaptureRan TIMEOUT_SEC ret))))).
  exists (snd (before w)).
  change (bind (start_capture requests) ?k)
    with (bind before (fun _ => clean_up s >> value EXIT_SUCCESS)).
  cbn [bind]. set (w3 := snd (before w)). clearbody w3. clear before.
  unfold clean_up, camera_stop, allocator_free, camera_release, cleaned.
  cbn. rewrite <- !app_assoc. split; reflexivity.
Qed.

(** X9: a run that returns [EXIT_SUCCESS] ends with the whole clean-up,
    in the order of lines 483-488: the camera is stopped, the buffers of
    the first stream are freed, the allocator is deleted, the camera is
    released and reset, the camera manager is stopped.  The process
    leaves with the camera neither running nor acquired and without
    buffers for that stream. *)
Theorem main_success_cleans_up (env : Env) :
  fst (main env) = EXIT_SUCCESS ->
  let s := stream (fst (configuration env)) in
  (exists t, trace (snd (main env)) = t ++ cleaned s) /\
  acquired (snd (main env)) = false /\
  running (snd (main env)) = false /\
  lookup_stream s (allocated (snd (main env))) = None.
Proof.
  intros Hok. cbv zeta.
  destruct (cameras env) as [|first rest] eqn:Hcams.
  { rewrite (main_without_cameras env Hcams) in Hok. discriminate Hok. }
  destruct (main_configured env first rest Hcams) as (w0 & t & Hmain & _).
  rewrite Hmain in *.
  destruct (after_configure_outcome env w0) as [(Hst & _) | (_ & w2 & Hr & _)].
  { rewrite Hst in Hok. discriminate Hok. }
  rewrite Hr.
  match goal with |- context [capture env ?s ?rs ?w1] =>
    destruct (capture_ends env s rs w1) as (w3 & -> & _)
  end.
  cbn [snd trace acquired running allocated set_trace set_acquired set_allocated
       set_running].
  split; [eexists; reflexivity |]. repeat split. apply lookup_remove_stream.
Qed.

Lemma main_success_cleans_up_witness :
  let env := env_of [DeviceCancels 1%nat; Dispatch] in
  let s := stream (fst (configuration env)) in
  (exists t, trace (snd (main env)) = t ++ cleaned s) /\
  acquired (snd (main env)) = false /\
  running (snd (main env)) = false /\
  lookup_stream s (allocated (snd (main env))) = None.
Proof.
  apply (main_success_cleans_up (env_of [DeviceCancels 1%nat; Dispatch])).
  vm_compute. reflexivity.
Defined.

Lemma after_configure_grows env w :
  exists t, trace (snd (after_configure env w)) = trace w ++ t.
Proof.
  destruct (after_configure_outcome env w)
    as [(_ & _ & _ & Ht) | (_ & w2 & Hr & (t1 & Ht1 & _) & _)]; [exact Ht |].
  rewrite Hr.
  match goal with |- context [capture env ?s ?rs ?w1] =>
    destruct (capture_unfailing env s rs w1) as (t2 & Ht2 & _)
  end.
  eexists. rewrite Ht2. cbn [trace set_trace]. rewrite Ht1, <- !app_assoc.
  reflexivity.
Qed.

(** X10: every run begins by starting the camera manager and printing
    the name of each camera found, in the order of enumeration.  With no
    camera it then only prints its message and stops the manager;
    otherwise the camera it fetches (by id) and acquires is the first one
    enumerated, whatever the others are. *)
Theorem main_lists_then_takes_first (env : Env) :
  exists t,
    trace (snd (main env))
    = CmStart ::
      map (fun camera => Cout (MsgCameraName (cameraName camera))) (cameras env) ++
      match cameras env with
      | [] => [Cout MsgNoCameras; CmStop]
      | first :: _ =>
          CmGet (id first) :: CameraAcquire :: CameraGenerateConfiguration :: t
      end.
Proof.
  destruct (cameras env) as [|first rest] eqn:Hcams.
  { exists []. now rewrite (main_without_cameras env Hcams). }
  destruct (main_configured env first rest Hcams) as (w0 & t0 & Hmain & _ & Ht0 & _).
  destruct (after_configure_grows env w0) as (t1 & Ht1).
  exists (t0 ++ t1). rewrite Hmain, Ht1, Ht0. unfold listed. rewrite Hcams.
  cbn [trace set_trace]. rewrite <- !app_assoc. reflexivity.
Qed.

(** Where a successful run stands when it turns to capturing. *)
Lemma main_captures env :
  fst (main env) = EXIT_SUCCESS ->
  let s := stream (fst (configuration env)) in
  let bufs := exported env s in
  exists w2,
    main env = capture env s (seq 0 (length bufs))
                 (set_trace (trace w2 ++ [SignalConnect]) w2) /\
    Forall quiet (trace w2) /\
    heap w2 = map (built s) bufs /\
    in_flight w2 = [] /\ calls w2 = [] /\ running w2 = false.
Proof.
  intros Hok. cbv zeta.
  destruct (cameras env) as [|first rest] eqn:Hcams.
  { rewrite (main_without_cameras env Hcams) in Hok. discriminate Hok. }
  destruct (main_configured env first rest Hcams)
    as (w0 & t0 & Hmain & Hw0 & Ht0 & Hq0).
  assert (Hf0 : heap w0 = [] /\ in_flight w0 = [] /\ calls w0 = [] /\
                running w0 = false) by (rewrite Hw0; repeat split).
  destruct Hf0 as (Hh0 & Hfl0 & Hc0 & Hr0).
  rewrite Hmain in *.
  destruct (after_configure_outcome env w0)
    as [(Hst & _) | (_ & w2 & Hr & (t1 & Ht1 & Hq1) & Hheap & (_ & Cr & Cf & Cc) & _)].
  { rewrite Hst in Hok. discriminate Hok. }
  rewrite Hh0 in Hr, Hheap. cbn [length app] in Hr, Hheap.
  exists w2. split; [exact Hr |]. split; [| split; [exact Hheap |]].
  - rewrite Ht1, Ht0. repeat (apply Forall_app; split); try assumption.
    + apply listed_trace_quiet.
    + repeat (constructor; [split; reflexivity |]). constructor.
  - repeat split; congruence.
Qed.

(** X11: in a run that returns [EXIT_SUCCESS] the slot is connected to
    [requestCompleted] immediately before the camera is started, and
    nothing before that starts the camera, queues a request or runs the
    loop: no completion can be signalled while no slot is connected. *)
Theorem main_connects_before_start (env : Env) :
  fst (main env) = EXIT_SUCCESS ->
  exists t1 t2,
    trace (snd (main env)) = t1 ++ [SignalConnect; CameraStart] ++ t2 /\
    Forall quiet t1.
Proof.
  intros Hok.
  destruct (main_captures env Hok) as (w2 & Hmain & Hq & Hheap & _).
  rewrite Hmain.
  match goal with |- context [capture env ?s ?rs ?w1] =>
    destruct (capture_trace env s rs w1) as (t & Ht)
  end.
  - apply NoDup_ListNoDup, seq_NoDup.
  - intros request Hin. cbn [heap set_trace]. rewrite Hheap. now apply built_idle.
  - exists (trace w2). eexists. split; [| exact Hq].
    rewrite Ht. cbn [trace set_trace]. rewrite <- !app_assoc. reflexivity.
Qed.

Lemma main_connects_before_start_witness :
  exists t1 t2,
    trace (snd (main (env_of [Exit 1]))) = t1 ++ [SignalConnect; CameraStart] ++ t2 /\
    Forall quiet t1.
Proof.
  apply (main_connects_before_start (env_of [Exit 1])). vm_compute. reflexivity.
Defined.

(** With no request and nothing deferred, the loop changes nothing. *)
Lemma loop_run_nothing events : forall w,
  heap w = [] -> calls w = [] ->
  loop_run events w = (fst (loop_run events initial), w).
Proof.
  induction events as [|ev events IH]; intros w Hh Hc; [reflexivity |].
  destruct ev as [request md fm | request | | code]; cbn [loop_run bind].
  - unfold device_complete, transition. rewrite Hh. cbn [lookup list_lookup].
    rewrite lookup_nil. cbn. rewrite (IH w Hh Hc). reflexivity.
  - unfold device_cancel, transition. rewrite Hh. rewrite lookup_nil. cbn.
    rewrite (IH w Hh Hc). reflexivity.
  - unfold loop_dispatch. rewrite Hc. cbn. rewrite (IH w Hh Hc). reflexivity.
  - reflexivity.
Qed.

(** X12: when every allocation succeeds but the first stream has no
    buffer, the request loop runs zero times: [main] creates and queues
    no request, yet connects the slot, starts the camera and runs the
    loop, in which nothing can complete and the handler never runs; it
    prints the loop's status, cleans up and returns [EXIT_SUCCESS]. *)
Theorem main_without_buffers (env : Env) :
  cameras env <> [] ->
  Forall (fun cfg => 0 <= allocate env (stream cfg))
         (fst (configuration env) :: snd (configuration env)) ->
  exported env (stream (fst (configuration env))) = [] ->
  fst (main env) = EXIT_SUCCESS /\
  heap (snd (main env)) = [] /\
  in_flight (snd (main env)) = [] /\
  exists t1,
    Forall quiet t1 /\
    trace (snd (main env))
    = t1 ++
      [SignalConnect; CameraStart; LoopTimeout TIMEOUT_SEC; LoopExec;
       Cout (MsgCaptureRan TIMEOUT_SEC (fst (loop_run (script env) initial)))] ++
      cleaned (stream (fst (configuration env))).
Proof.
  intros Hcams Hall Hnone.
  assert (Hok : fst (main env) = EXIT_SUCCESS).
  { destruct (cameras env) as [|first rest] eqn:Hc; [contradiction |].
    destruct (main_configured env first rest Hc) as (w0 & t0 & Hmain & Hw0 & _).
    rewrite Hmain.
    destruct (after_configure_outcome env w0) as [(_ & Hfail & _) | (_ & w2 & -> & _)];
      [| reflexivity].
    exfalso. destruct Hfail as [(cfg & Hin & Hneg) | (i & b & Hi & _)].
    - rewrite Forall_forall in Hall. apply list_elem_of_In in Hin.
      specialize (Hall cfg Hin). cbv beta in Hall. lia.
    - rewrite Hnone in Hi. discriminate Hi. }
  split; [exact Hok |].
  destruct (main_captures env Hok) as (w2 & Hmain & Hq & Hheap & Hfl & Hc & _).
  rewrite Hnone in Hmain, Hheap. cbn [length seq map] in Hmain, Hheap.
  rewrite Hmain.
  unfold capture, start_capture, camera_start, loop_timeout, loop_exec, cout.
  cbn [for_each bind emit modify value fst snd].
  rewrite loop_run_nothing; [| exact Hheap | exact Hc].
  unfold clean_up, camera_stop, allocator_free, camera_release, cleaned.
  cbn. split; [exact Hheap |]. split; [exact Hfl |].
  exists (trace w2). split; [exact Hq |]. rewrite <- !app_assoc. reflexivity.
Qed.

Lemma main_without_buffers_witness :
  fst (main env_no_buffers) = EXIT_SUCCESS /\
  heap (snd (main env_no_buffers)) = [] /\
  in_flight (snd (main env_no_buffers)) = [] /\
  exists t1,
    Forall quiet t1 /\
    trace (snd (main env_no_buffers))
    = t1 ++
      [SignalConnect; CameraStart; LoopTimeout TIMEOUT_SEC; LoopExec;
       Cout (MsgCaptureRan TIMEOUT_SEC
               (fst (loop_run (script env_no_buffers) initial)))] ++
      cleaned (stream (fst (configuration env_no_buffers))).
Proof.
  apply (main_without_buffers env_no_buffers).
  - discriminate.
  - repeat constructor; discriminate.
  - reflexivity.
Defined.

(** The buffers of the requests at the end of a successful run. *)
Lemma main_final_buffers env :
  fst (main env) = EXIT_SUCCESS ->
  map buffers (heap (snd (main env)))
  = map (fun b => [(stream (fst (configuration env)), b)])
        (exported env (stream (fst (configuration env)))).
Proof.
  intros Hok. destruct (main_captures env Hok) as (w2 & Hmain & _ & Hheap & _).
  rewrite Hmain.
  match goal with |- context [capture env ?s ?rs ?w1] =>
    pose proof (keeps_buffers_capture env s rs w1) as Hkeep
  end.
  unfold keeps_buffers in Hkeep. cbn [heap set_trace] in Hkeep.
  rewrite Hheap, map_map in Hkeep. exact Hkeep.
Qed.

(** X13: when the buffers exported for the first stream are distinct, no
    buffer is ever shared: at the end of a successful run, however many
    times the requests went round, two requests that hold the same
    buffer are the same request. *)
Theorem main_shares_no_buffer (env : Env) :
  fst (main env) = EXIT_SUCCESS ->
  NoDup (exported env (stream (fst (configuration env)))) ->
  forall i j ri rj b,
    heap (snd (main env)) !! i = Some ri ->
    heap (snd (main env)) !! j = Some rj ->
    In b (map snd (buffers ri)) -> In b (map snd (buffers rj)) ->
    i = j.
Proof.
  intros Hok Hnd i j ri rj b Hi Hj Hbi Hbj.
  pose proof (main_final_buffers env Hok) as Hbufs.
  set (s := stream (fst (configuration env))) in *.
  set (bufs := exported env s) in *.
  assert (Hat : forall k rk, heap (snd (main env)) !! k = Some rk ->
                  In b (map snd (buffers rk)) -> bufs !! k = Some b).
  { intros k rk Hk Hb.
    assert (E : (map buffers (heap (snd (main env)))) !! k = Some (buffers rk)).
    { change (map buffers ?l) with (buffers <$> l). rewrite list_lookup_fmap.
      etrans; [apply (f_equal (fmap buffers) Hk) |]. reflexivity. }
    rewrite Hbufs in E.
    change (map ?f bufs) with (f <$> bufs) in E. rewrite list_lookup_fmap in E.
    destruct (bufs !! k) as [bk|]; [| discriminate E].
    injection E as E. rewrite <- E in Hb. cbn in Hb.
    destruct Hb as [<- | []]. reflexivity. }
  eapply NoDup_lookup; [exact Hnd | eapply Hat | eapply Hat]; eassumption.
Qed.

Lemma main_shares_no_buffer_witness :
  let env := env_of [DeviceCancels 1%nat] in
  let r := {| status := RequestCancelled; buffers := [(0%nat, 11%nat)]; metadata := [] |} in
  fst (main env) = EXIT_SUCCESS /\
  NoDup (exported env (stream (fst (configuration env)))) /\
  heap (snd (main env)) !! 1%nat = Some r /\
  In 11%nat (map snd (buffers r)) /\
  1%nat = 1%nat.
Proof.
  intros env r.
  assert (Hs : fst (main env) = EXIT_SUCCESS) by (vm_compute; reflexivity).
  assert (Hn : NoDup (exported env (stream (fst (configuration env))))).
  { apply NoDup_ListNoDup. cbn.
    constructor; [intros [H | []]; discriminate H |].
    constructor; [intros [] |]. constructor. }
  assert (Hr : heap (snd (main env)) !! 1%nat = Some r) by (vm_compute; reflexivity).
  assert (Hb : In 11%nat (map snd (buffers r))) by (left; reflexivity).
  split; [exact Hs |]. split; [exact Hn |]. split; [exact Hr |]. split; [exact Hb |].
  exact (main_shares_no_buffer env Hs Hn 1%nat 1%nat r r 11%nat Hr Hr Hb Hb).
Defined.

(** ** The capture cycle *)

Lemma stays_refl w : stays w w.
Proof. intros H. exact H. Qed.

Lemma stays_trans a b c : stays a b -> stays b c -> stays a c.
Proof. unfold stays. auto. Qed.

#[local] Hint Resolve stays_refl stays_trans : world.

Lemma status_insert (h : list Request) (request i : RequestPtr) (r' : Request) :
  (request < length h)%nat ->
  status <$> <[request := r']> h !! i
  = if decide (i = request) then Some (status r') else status <$> h !! i.
Proof.
  intros Hlt. destruct (decide (i = request)) as [-> | Hne].
  - now rewrite list_lookup_insert_eq.
  - now rewrite list_lookup_insert_ne.
Qed.

(** One request changes its state and its place. *)
Lemma cycle_update (h : list Request) (fl cs fl' cs' : list RequestPtr)
    (request : RequestPtr) (r' : Request) :
  cycle h fl cs ->
  (request < length h)%nat ->
  NoDup fl' -> NoDup cs' ->
  (forall i, i <> request -> (i ∈ fl' <-> i ∈ fl) /\ (i ∈ cs' <-> i ∈ cs)) ->
  (request ∈ fl' <-> status r' = Queued) ->
  (request ∈ cs' <-> status r' = Completed) ->
  cycle (<[request := r']> h) fl' cs'.
Proof.
  intros (_ & _ & Hc) Hlt Hfl Hcs Hother Hqf Hqc.
  split; [exact Hfl |]. split; [exact Hcs |]. intros i.
  rewrite (status_insert h request i r' Hlt).
  destruct (decide (i = request)) as [-> | Hne].
  - split.
    + rewrite Hqf. split; [now intros -> | now intros [= ->]].
    + rewrite Hqc. split; [now intros -> | now intros [= ->]].
  - destruct (Hother i Hne) as [Hf Hk]. destruct (Hc i) as [Hcf Hck].
    rewrite Hf, Hk. split; assumption.
Qed.

Lemma cycle_status (h : list Request) fl cs (i : RequestPtr) (r : Request) :
  cycle h fl cs -> h !! i = Some r ->
  (i ∈ fl <-> status r = Queued) /\ (i ∈ cs <-> status r = Completed).
Proof.
  intros (_ & _ & Hc) Hi. destruct (Hc i) as [Hf Hk].
  rewrite Hi in Hf, Hk. cbn in Hf, Hk. split.
  - rewrite Hf. split; [now intros [= ->] | now intros ->].
  - rewrite Hk. split; [now intros [= ->] | now intros ->].
Qed.

Lemma transition_inv f request w h :
  transition f request w = Some h ->
  exists r r', heap w !! request = Some r /\ f r = Some r' /\
               h = <[request := r']> (heap w).
Proof.
  unfold transition. destruct (heap w !! request) as [r|]; [| discriminate].
  destruct (f r) as [r'|] eqn:Hf; [| discriminate]. intros [= <-].
  exists r, r'. repeat split. exact Hf.
Qed.

Lemma stays_emit e : respects stays (emit e).
Proof. intros w H. exact H. Qed.

(** Queueing keeps the cycle: an idle request joins the camera's queue,
    any other is refused. *)
Lemma stays_queueRequest request : respects stays (camera_queueRequest request).
Proof.
  intros w Hin. unfold camera_queueRequest.
  destruct (running w); [| exact Hin].
  destruct (transition _ request w) as [h|] eqn:Ht; [| exact Hin].
  apply transition_inv in Ht as (r & r' & Hr & Hf & ->).
  unfold RequestTracker.submit in Hf.
  destruct (status r) eqn:Hst; try discriminate Hf. injection Hf as <-.
  unfold in_cycle in *. cbn [heap in_flight calls set_trace set_in_flight set_heap snd].
  destruct (cycle_status _ _ _ request r Hin Hr) as [Hf Hk].
  rewrite Hst in Hf, Hk.
  assert (Hnf : request ∉ in_flight w) by (intros H; apply Hf in H; discriminate H).
  assert (Hnk : request ∉ calls w) by (intros H; apply Hk in H; discriminate H).
  destruct Hin as (Hndf & Hndc & Hc).
  apply cycle_update with (fl := in_flight w) (cs := calls w).
  - exact (conj Hndf (conj Hndc Hc)).
  - eapply lookup_lt_Some; eassumption.
  - apply NoDup_app. split; [exact Hndf |]. split; [| apply NoDup_singleton].
    intros x Hx Hx'. apply list_elem_of_singleton in Hx'. now subst.
  - exact Hndc.
  - intros i Hne. split; [| reflexivity].
    rewrite elem_of_app, list_elem_of_singleton. tauto.
  - cbn. rewrite elem_of_app, list_elem_of_singleton. tauto.
  - cbn. split; [contradiction | discriminate].
Qed.

Lemma device_complete_void w request md fm :
  (forall r, heap w !! request = Some r -> status r <> Queued) ->
  device_complete request md fm w = (false, w).
Proof.
  intros Hv. unfold device_complete.
  destruct (transition _ request w) as [h|] eqn:Ht; [| reflexivity].
  apply transition_inv in Ht as (r & r' & Hr & Hf & _).
  unfold RequestTracker.onCompleted in Hf.
  destruct (status r) eqn:Hst; try discriminate Hf.
  now destruct (Hv r Hr).
Qed.

Lemma device_cancel_void w request :
  (forall r, heap w !! request = Some r -> status r <> Queued) ->
  device_cancel request w = (false, w).
Proof.
  intros Hv. unfold device_cancel.
  destruct (transition _ request w) as [h|] eqn:Ht; [| reflexivity].
  apply transition_inv in Ht as (r & r' & Hr & Hf & _).
  unfold RequestTracker.onCancelled in Hf.
  destruct (status r) eqn:Hst; try discriminate Hf.
  now destruct (Hv r Hr).
Qed.

Lemma device_cancel_queued w request r :
  heap w !! request = Some r -> status r = Queued ->
  device_cancel request w
  = (true,
     set_in_flight (filter (fun x => x <> request) (in_flight w))
       (set_heap (<[request := {| status := RequestCancelled; buffers := buffers r;
                                  metadata := metadata r |}]> (heap w)) w)).
Proof.
  intros Hr Hst. unfold device_cancel.
  rewrite (transition_some _ request w r
             {| status := RequestCancelled; buffers := buffers r;
                metadata := metadata r |});
    [reflexivity | exact Hr |].
  unfold RequestTracker.onCancelled. now rewrite Hst.
Qed.

(** A request either is queued or is not. *)
Lemma queued_or_not w request :
  (exists r, heap w !! request = Some r /\ status r = Queued) \/
  (forall r, heap w !! request = Some r -> status r <> Queued).
Proof.
  destruct (heap w !! request) as [r|]; [| right; discriminate].
  destruct (status r) eqn:Hst;
    first [ left; exists r; now split
          | right; intros r' [= <-]; rewrite Hst; discriminate ].
Qed.

(** The world after the device completes the queued request [request] and
    the slot has run. *)
Lemma completion_step w request r md fm :
  heap w !! request = Some r -> status r = Queued ->
  snd (requestComplete request (snd (device_complete request md fm w)))
  = set_trace (trace w ++ [SlotRequestComplete request Completed;
                           LoopCallLater request])
      (set_calls (calls w ++ [request])
         (set_frames (map (fun sb => (snd sb, fm)) (buffers r) ++ frames w)
            (set_in_flight (filter (fun x => x <> request) (in_flight w))
               (set_heap (<[request := {| status := Completed; buffers := buffers r;
                                          metadata := md |}]> (heap w)) w)))) /\
  fst (device_complete request md fm w) = true.
Proof.
  intros Hr Hst.
  assert (Hlt : (request < length (heap w))%nat) by (eapply lookup_lt_Some; eassumption).
  rewrite (device_complete_queued w request r md fm Hr Hst). cbn [fst snd].
  split; [| reflexivity].
  match goal with |- context [requestComplete request ?w1] =>
    rewrite (requestComplete_accepted w1 request
               {| status := Completed; buffers := buffers r; metadata := md |});
      [reflexivity
      | cbn [heap set_frames set_in_flight set_heap];
        now apply list_lookup_insert_eq
      | discriminate ]
  end.
Qed.

Lemma cancellation_step w request r :
  heap w !! request = Some r -> status r = Queued ->
  snd (requestComplete request (snd (device_cancel request w)))
  = set_trace (trace w ++ [SlotRequestComplete request RequestCancelled])
      (set_in_flight (filter (fun x => x <> request) (in_flight w))
         (set_heap (<[request := {| status := RequestCancelled; buffers := buffers r;
                                    metadata := metadata r |}]> (heap w)) w)) /\
  fst (device_cancel request w) = true.
Proof.
  intros Hr Hst.
  assert (Hlt : (request < length (heap w))%nat) by (eapply lookup_lt_Some; eassumption).
  rewrite (device_cancel_queued w request r Hr Hst). cbn [fst snd].
  split; [| reflexivity].
  match goal with |- context [requestComplete request ?w1] =>
    rewrite (requestComplete_cancelled w1 request
               {| status := RequestCancelled; buffers := buffers r;
                  metadata := metadata r |});
      [reflexivity
      | cbn [heap set_in_flight set_heap]; now apply list_lookup_insert_eq
      | reflexivity ]
  end.
Qed.

Lemma cycle_leaves_flight (h : list Request) fl cs request r r' cs' :
  cycle h fl cs -> h !! request = Some r -> status r = Queued ->
  status r' <> Queued ->
  NoDup cs' ->
  (forall i, i <> request -> (i ∈ cs' <-> i ∈ cs)) ->
  (request ∈ cs' <-> status r' = Completed) ->
  cycle (<[request := r']> h) (filter (fun x => x <> request) fl) cs'.
Proof.
  intros Hcy Hr Hst Hnq Hnd Hother Hreq.
  apply cycle_update with (fl := fl) (cs := cs); try assumption.
  - eapply lookup_lt_Some; eassumption.
  - apply NoDup_filter. apply Hcy.
  - intros i Hne. split; [| now apply Hother].
    rewrite list_elem_of_filter. tauto.
  - rewrite list_elem_of_filter. split; [intros [Hne _]; now contradiction Hne |].
    intros H. contradiction.
Qed.

Lemma stays_completion w request md fm :
  in_cycle w ->
  in_cycle (snd ((if fst (device_complete request md fm w)
                  then requestComplete request else value tt)
                   (snd (device_complete request md fm w)))).
Proof.
  intros Hin. destruct (queued_or_not w request) as [(r & Hr & Hst) | Hv].
  - destruct (completion_step w request r md fm Hr Hst) as [Hw Hb].
    rewrite Hb, Hw. unfold in_cycle in *.
    cbn [heap in_flight calls set_trace set_calls set_frames set_in_flight set_heap].
    destruct (cycle_status _ _ _ request r Hin Hr) as [_ Hk]. rewrite Hst in Hk.
    assert (Hnk : request ∉ calls w) by (intros H; apply Hk in H; discriminate H).
    eapply cycle_leaves_flight; try eassumption.
    + discriminate.
    + apply NoDup_app. split; [apply Hin |]. split; [| apply NoDup_singleton].
      intros x Hx Hx'. apply list_elem_of_singleton in Hx'. now subst.
    + intros i Hne. rewrite elem_of_app, list_elem_of_singleton. tauto.
    + cbn. rewrite elem_of_app, list_elem_of_singleton. tauto.
  - rewrite (device_complete_void w request md fm Hv). exact Hin.
Qed.

Lemma stays_cancellation w request :
  in_cycle w ->
  in_cycle (snd ((if fst (device_cancel request w)
                  then requestComplete request else value tt)
                   (snd (device_cancel request w)))).
Proof.
  intros Hin. destruct (queued_or_not w request) as [(r & Hr & Hst) | Hv].
  - destruct (cancellation_step w request r Hr Hst) as [Hw Hb].
    rewrite Hb, Hw. unfold in_cycle in *.
    cbn [heap in_flight calls set_trace set_in_flight set_heap].
    destruct (cycle_status _ _ _ request r Hin Hr) as [_ Hk]. rewrite Hst in Hk.
    assert (Hnk : request ∉ calls w) by (intros H; apply Hk in H; discriminate H).
    eapply cycle_leaves_flight; try eassumption.
    + discriminate.
    + apply Hin.
    + reflexivity.
    + cbn. split; [contradiction | discriminate].
  - rewrite (device_cancel_void w request Hv). exact Hin.
Qed.

Lemma cycle_head_completed (w : World) request rest :
  in_cycle w -> calls w = request :: rest ->
  exists r, heap w !! request = Some r /\ status r = Completed /\
            (request ∉ rest) /\ (request ∉ in_flight w).
Proof.
  intros Hin Hcalls. pose proof Hin as (Hndf & Hndc & Hc).
  rewrite Hcalls in Hndc. apply NoDup_cons in Hndc as [Hnotin _].
  destruct (Hc request) as [Hf Hk]. rewrite Hcalls in Hk.
  assert (Hst : status <$> heap w !! request = Some Completed).
  { apply Hk. now left. }
  destruct (heap w !! request) as [r|] eqn:Hr; [| discriminate Hst].
  injection Hst as Hst. exists r. repeat split; try assumption.
  intros H. apply Hf in H. cbn in H. rewrite Hst in H. discriminate H.
Qed.

Lemma stays_dispatch w : in_cycle w -> in_cycle (snd (loop_dispatch w)).
Proof.
  intros Hin. unfold loop_dispatch.
  destruct (calls w) as [|request rest] eqn:Hcalls; [exact Hin |].
  destruct (cycle_head_completed w request rest Hin Hcalls)
    as (r & Hr & Hst & Hnr & Hnf).
  rewrite (processRequest_prints (set_calls rest w) request r Hr). cbn [snd].
  apply stays_queueRequest.
  unfold request_reuse. cbn [bind emit modify fst snd].
  rewrite (transition_some _ request _ r
             {| status := Idle; buffers := buffers r; metadata := [] |});
    [| exact Hr | unfold RequestTracker.reuse; now rewrite Hst].
  unfold in_cycle in *. cbn [heap in_flight calls set_trace set_calls set_heap].
  pose proof Hin as (Hndf & Hndc & _).
  rewrite Hcalls in Hndc. apply NoDup_cons in Hndc as [_ Hndr].
  apply cycle_update with (fl := in_flight w) (cs := calls w); try assumption.
  - eapply lookup_lt_Some; eassumption.
  - intros i Hne. split; [reflexivity |]. rewrite Hcalls, elem_of_cons. tauto.
  - cbn. split; [contradiction | discriminate].
  - cbn. split; [contradiction | discriminate].
Qed.

Lemma stays_loop_run events : respects stays (loop_run events).
Proof.
  induction events as [|ev events IH]; intros w Hin; [exact Hin |].
  destruct ev as [request md fm | request | | code]; cbn [loop_run bind].
  - apply IH. now apply stays_completion.
  - apply IH. now apply stays_cancellation.
  - apply IH. now apply stays_dispatch.
  - exact Hin.
Qed.

(** X14: the loop keeps the requests in cycle.  If the camera's queue
    holds exactly the queued requests and the deferred calls exactly the
    completed ones, each once, then so it is after any completions,
    cancellations and turns of the loop, in any order: no request is
    queued or deferred twice, none is handled while it is in flight, and
    a completion or cancellation of a request that is not in flight
    changes nothing. *)
Theorem loop_keeps_cycle (events : list LoopEvent) (w : World) :
  cycle (heap w) (in_flight w) (calls w) ->
  let w' := snd (loop_run events w) in
  cycle (heap w') (in_flight w') (calls w').
Proof. apply stays_loop_run. Qed.

Lemma world_in_flight_cycle :
  cycle (heap world_in_flight) (in_flight world_in_flight) (calls world_in_flight).
Proof.
  split; [| split].
  - apply NoDup_singleton.
  - apply NoDup_nil_2.
  - intros [|i]; cbn; split; split; try discriminate.
    + reflexivity.
    + intros _. now left.
    + intros H. apply elem_of_nil in H. contradiction.
    + intros H. apply list_elem_of_singleton in H. discriminate H.
    + intros H. apply elem_of_nil in H. contradiction.
Defined.

Lemma loop_keeps_cycle_witness :
  let w' := snd (loop_run [DeviceCompletes 0%nat [(1%nat, "v")] frame;
                           DeviceCompletes 0%nat [] frame; Dispatch;
                           DeviceCancels 0%nat; Dispatch] world_in_flight) in
  cycle (heap w') (in_flight w') (calls w').
Proof.
  apply (loop_keeps_cycle
           [DeviceCompletes 0%nat [(1%nat, "v")] frame;
            DeviceCompletes 0%nat [] frame; Dispatch;
            DeviceCancels 0%nat; Dispatch] world_in_flight).
  exact world_in_flight_cycle.
Defined.

(** X15: a cancelled request is abandoned.  Once a request is in the
    cancelled state, nothing that happens in the loop touches it again:
    it is never handled, reused or queued, and keeps its state, buffers
    and metadata until the loop ends; it is neither in the camera's
    queue nor among the deferred calls. *)
Theorem cancelled_request_is_abandoned (events : list LoopEvent) (w : World)
    (i : RequestPtr) (r : Request) :
  cycle (heap w) (in_flight w) (calls w) ->
  heap w !! i = Some r -> status r = RequestCancelled ->
  let w' := snd (loop_run events w) in
  heap w' !! i = Some r /\ (i ∉ in_flight w') /\ (i ∉ calls w').
Proof.
  intros Hin Hi Hst. cbv zeta.
  assert (H : heap (snd (loop_run events w)) !! i = Some r).
  { fold (in_cycle w) in Hin. revert w Hin Hi.
    induction events as [|ev events IH]; intros w Hin Hi; [exact Hi |].
    destruct ev as [request md fm | request | | code]; cbn [loop_run bind].
    - apply IH; [now apply stays_completion |].
      destruct (queued_or_not w request) as [(r0 & Hr0 & Hst0) | Hv].
      + destruct (completion_step w request r0 md fm Hr0 Hst0) as [Hw Hb].
        rewrite Hb, Hw. cbn [heap set_trace set_calls set_frames set_in_flight set_heap].
        rewrite list_lookup_insert_ne; [exact Hi |].
        intros ->. pose proof (eq_trans (eq_sym Hi) Hr0) as E.
        injection E as <-. congruence.
      + now rewrite (device_complete_void w request md fm Hv).
    - apply IH; [now apply stays_cancellation |].
      destruct (queued_or_not w request) as [(r0 & Hr0 & Hst0) | Hv].
      + destruct (cancellation_step w request r0 Hr0 Hst0) as [Hw Hb].
        rewrite Hb, Hw. cbn [heap set_trace set_in_flight set_heap].
        rewrite list_lookup_insert_ne; [exact Hi |].
        intros ->. pose proof (eq_trans (eq_sym Hi) Hr0) as E.
        injection E as <-. congruence.
      + now rewrite (device_cancel_void w request Hv).
    - apply IH; [now apply stays_dispatch |].
      unfold loop_dispatch.
      destruct (calls w) as [|request rest] eqn:Hcalls; [exact Hi |].
      destruct (cycle_head_completed w request rest Hin Hcalls)
        as (r0 & Hr0 & Hst0 & _).
      destruct (processRequest_apart request (set_calls rest w)) as [He _].
      rewrite (He i); [exact Hi |].
      intros ->. pose proof (eq_trans (eq_sym Hi) Hr0) as E.
      injection E as <-. congruence.
    - exact Hi. }
  split; [exact H |].
  pose proof (stays_loop_run events w Hin) as Hin'.
  destruct (cycle_status _ _ _ i r Hin' H) as [Hf Hk]. rewrite Hst in Hf, Hk.
  split; intros Hx; [apply Hf in Hx | apply Hk in Hx]; discriminate Hx.
Qed.

Lemma world_one_cancelled_cycle :
  cycle (heap world_one_cancelled) (in_flight world_one_cancelled)
        (calls world_one_cancelled).
Proof.
  split; [apply NoDup_singleton |]. split; [apply NoDup_nil_2 |].
  intros [|[|i]]; cbn; split; split; try discriminate;
    rewrite ?list_elem_of_singleton; try discriminate; try reflexivity;
    intros H; apply elem_of_nil in H; contradiction.
Defined.

Lemma cancelled_request_is_abandoned_witness :
  let events := [DeviceCompletes 1%nat [(1%nat, "v")] frame;
                 DeviceCancels 0%nat; DeviceCompletes 0%nat [] frame;
                 Dispatch; Dispatch;
                 DeviceCompletes 1%nat [] frame; Dispatch] in
  let w' := snd (loop_run events world_one_cancelled) in
  (heap w' !! 0%nat
   = Some {| status := RequestCancelled; buffers := [(0%nat, 10%nat)];
             metadata := [] |}
   /\ (0%nat ∉ in_flight w') /\ (0%nat ∉ calls w')) /\
  map fst (notified (trace w')) = [1%nat; 1%nat] /\
  handled (trace w') = [1%nat; 1%nat] /\
  in_flight w' = [1%nat].
Proof.
  intros events w'. split.
  - exact (cancelled_request_is_abandoned events world_one_cancelled 0%nat _
             world_one_cancelled_cycle eq_refl eq_refl).
  - repeat split; vm_compute; reflexivity.
Defined.

(** *** No request is left idle *)

Lemma no_idle_insert (h : list Request) (request : RequestPtr) (r' : Request) :
  (forall j rj, h !! j = Some rj -> status rj <> Idle) ->
  status r' <> Idle ->
  forall j rj, <[request := r']> h !! j = Some rj -> status rj <> Idle.
Proof.
  intros Hold Hnew j rj Hj.
  destruct (decide (j = request)) as [-> | Hne].
  - destruct (decide (request < length h)%nat) as [Hlt | Hge].
    + rewrite list_lookup_insert_eq in Hj by exact Hlt. now injection Hj as <-.
    + rewrite list_insert_ge in Hj by lia. now apply (Hold request).
  - rewrite list_lookup_insert_ne in Hj by congruence. now apply (Hold j).
Qed.

Lemma keeps_cycling_completion w request md fm :
  cycling w ->
  cycling (snd ((if fst (device_complete request md fm w)
                 then requestComplete request else value tt)
                  (snd (device_complete request md fm w)))).
Proof.
  intros (Hin & Hrun & Hbusy). split; [now apply stays_completion |].
  destruct (queued_or_not w request) as [(r & Hr & Hst) | Hv].
  - destruct (completion_step w request r md fm Hr Hst) as [Hw Hb].
    rewrite Hb, Hw.
    cbn [heap running set_trace set_calls set_frames set_in_flight set_heap].
    split; [exact Hrun |]. apply no_idle_insert; [exact Hbusy | discriminate].
  - rewrite (device_complete_void w request md fm Hv). now split.
Qed.

Lemma keeps_cycling_cancellation w request :
  cycling w ->
  cycling (snd ((if fst (device_cancel request w)
                 then requestComplete request else value tt)
                  (snd (device_cancel request w)))).
Proof.
  intros (Hin & Hrun & Hbusy). split; [now apply stays_cancellation |].
  destruct (queued_or_not w request) as [(r & Hr & Hst) | Hv].
  - destruct (cancellation_step w request r Hr Hst) as [Hw Hb].
    rewrite Hb, Hw. cbn [heap running set_trace set_in_flight set_heap].
    split; [exact Hrun |]. apply no_idle_insert; [exact Hbusy | discriminate].
  - rewrite (device_cancel_void w request Hv). now split.
Qed.

Lemma keeps_cycling_dispatch w : cycling w -> cycling (snd (loop_dispatch w)).
Proof.
  intros (Hin & Hrun & Hbusy). split; [now apply stays_dispatch |].
  unfold loop_dispatch.
  destruct (calls w) as [|request rest] eqn:Hcalls; [now split |].
  destruct (cycle_head_completed w request rest Hin Hcalls) as (r & Hr & Hst & _).
  rewrite (processRequest_completed (set_calls rest w) request r Hr Hst Hrun).
  cbn [snd heap running set_trace set_calls set_in_flight set_heap].
  split; [exact Hrun |]. apply no_idle_insert; [exact Hbusy | discriminate].
Qed.

Lemma keeps_cycling_loop_run events : respects keeps_cycling (loop_run events).
Proof.
  induction events as [|ev events IH]; intros w Hc; [exact Hc |].
  destruct ev as [request md fm | request | | code]; cbn [loop_run bind].
  - apply IH. now apply keeps_cycling_completion.
  - apply IH. now apply keeps_cycling_cancellation.
  - apply IH. now apply keeps_cycling_dispatch.
  - exact Hc.
Qed.

Lemma built_cycle s (bufs : list FrameBuffer) : cycle (map (built s) bufs) [] [].
Proof.
  split; [apply NoDup_nil_2 |]. split; [apply NoDup_nil_2 |].
  intros i. change (map (built s) bufs) with (built s <$> bufs).
  rewrite list_lookup_fmap.
  match goal with |- context [built s <$> ?o] => destruct o end;
    split; split; intros H;
    first [ apply elem_of_nil in H; contradiction | discriminate H ].
Qed.

Lemma stays_start_capture requests : respects stays (start_capture requests).
Proof.
  unfold start_capture, camera_start.
  apply respects_bind; eauto with world.
  - intros w H. exact H.
  - intros _. apply respects_for_each; eauto with world.
    intros request. apply respects_bind; eauto with world.
    + apply stays_queueRequest.
    + intros _. apply respects_value; eauto with world.
Qed.

Lemma start_capture_running requests w :
  running (snd (start_capture requests w)) = true.
Proof.
  unfold start_capture, camera_start. cbn [bind emit modify fst snd].
  match goal with |- context [for_each requests ?body ?w1] =>
    assert (H : forall l w2, running (snd (for_each l body w2)) = running w2);
      [| now rewrite H]
  end.
  induction l as [|x l IH]; intros w2; [reflexivity |].
  cbn [for_each bind value fst snd]. rewrite IH.
  apply (camera_queueRequest_outcome w2 x).
Qed.

(** Once the camera is started and the fresh requests are queued, the
    requests are cycling. *)
Lemma start_capture_cycling s (bufs : list FrameBuffer) w :
  heap w = map (built s) bufs -> in_flight w = [] -> calls w = [] ->
  cycling (snd (start_capture (seq 0 (length bufs)) w)).
Proof.
  intros Hheap Hfl Hcalls.
  assert (Hin : in_cycle (snd (start_capture (seq 0 (length bufs)) w))).
  { apply stays_start_capture. unfold in_cycle. rewrite Hheap, Hfl, Hcalls.
    apply built_cycle. }
  split; [exact Hin |]. split; [apply start_capture_running |].
  assert (Hlen : length (heap (snd (start_capture (seq 0 (length bufs)) w)))
                 = length bufs).
  { pose proof (keeps_buffers_start_capture (seq 0 (length bufs)) w) as Hk.
    unfold keeps_buffers in Hk. apply (f_equal length) in Hk.
    rewrite !length_map, Hheap, length_map in Hk. exact Hk. }
  assert (Hq : in_flight (snd (start_capture (seq 0 (length bufs)) w))
               = seq 0 (length bufs)).
  { unfold start_capture, camera_start. cbn [bind emit modify fst snd].
    match goal with |- context [for_each _ _ ?w1] =>
      destruct (queue_all (seq 0 (length bufs)) w1 eq_refl) as [_ Hf]
    end.
    - apply NoDup_ListNoDup, seq_NoDup.
    - intros request Hr. cbn [heap set_running set_trace]. rewrite Hheap.
      now apply built_idle.
    - rewrite Hf. cbn [in_flight set_running set_trace]. now rewrite Hfl. }
  intros i r Hi.
  destruct (cycle_status _ _ _ i r Hin Hi) as [Hf _].
  assert (Hq' : status r = Queued).
  { apply Hf. rewrite Hq. apply list_elem_of_In, in_seq.
    apply lookup_lt_Some in Hi. lia. }
  rewrite Hq'. discriminate.
Qed.

(** X16: at the end of a run that returns [EXIT_SUCCESS], however the
    device and the loop interleaved, every request is in exactly one
    place: queued at the camera (and then in its queue, once), completed
    and awaiting its handler (and then among the deferred calls, once),
    or cancelled and in neither; no request is idle. *)
Theorem main_ends_in_cycle (env : Env) :
  fst (main env) = EXIT_SUCCESS ->
  let w := snd (main env) in
  cycle (heap w) (in_flight w) (calls w) /\
  forall i r, heap w !! i = Some r -> status r <> Idle.
Proof.
  intros Hok. cbv zeta.
  destruct (main_captures env Hok) as (w2 & Hmain & _ & Hheap & Hfl & Hc & _).
  rewrite Hmain. unfold capture.
  set (s := stream (fst (configuration env))) in *.
  set (bufs := exported env s) in *.
  set (w1 := set_trace (trace w2 ++ [SignalConnect]) w2).
  pose proof (start_capture_cycling s bufs w1 Hheap Hfl Hc) as Hcyc.
  set (mid := bind (loop_timeout TIMEOUT_SEC)
                (fun _ => bind (loop_exec env)
                   (fun ret => cout (MsgCaptureRan TIMEOUT_SEC ret)))).
  assert (Hmid : respects keeps_cycling mid).
  { subst mid. unfold loop_timeout, loop_exec, cout.
    assert (He : forall e, respects keeps_cycling (emit e)) by (intros e w H; exact H).
    assert (Hrefl : forall w, keeps_cycling w w) by (intros w H; exact H).
    assert (Htrans : forall a b c, keeps_cycling a b -> keeps_cycling b c ->
                                   keeps_cycling a c) by (unfold keeps_cycling; auto).
    apply respects_bind; auto. intros _.
    apply respects_bind; auto.
    apply respects_bind; auto. intros _. apply keeps_cycling_loop_run. }
  change (bind (start_capture (seq 0 (length bufs))) ?k)
    with (bind (start_capture (seq 0 (length bufs)))
            (fun _ => bind mid (fun _ => clean_up s >> value EXIT_SUCCESS))).
  cbn [bind]. set (w3 := snd (start_capture (seq 0 (length bufs)) w1)) in *.
  specialize (Hmid w3 Hcyc). set (w4 := snd (mid w3)) in *.
  clearbody w4. clear Hcyc. clearbody w3.
  destruct Hmid as (Hin & _ & Hbusy).
  unfold clean_up, camera_stop, allocator_free, camera_release. cbn.
  split; [exact Hin | exact Hbusy].
Qed.

Lemma main_ends_in_cycle_witness :
  let w := snd (main (env_of [DeviceCompletes 1%nat [] frame; DeviceCancels 0%nat;
                              Dispatch; Dispatch])) in
  cycle (heap w) (in_flight w) (calls w) /\
  forall i r, heap w !! i = Some r -> status r <> Idle.
Proof.
  apply (main_ends_in_cycle
           (env_of [DeviceCompletes 1%nat [] frame; DeviceCancels 0%nat;
                    Dispatch; Dispatch])).
  vm_compute. reflexivity.
Defined.

(** * The completion cycle while the loop runs *)

Lemma beside_refl request p w : beside request p w w.
Proof.
  repeat (split; [reflexivity |]). split; [intros x Hx; now left |].
  apply extends_refl.
Qed.

Lemma beside_trans request p a b c :
  beside request p a b -> beside request p b c -> beside request p a c.
Proof.
  intros (R1 & C1 & A1 & F1 & E1) (R2 & C2 & A2 & F2 & E2).
  split; [congruence |]. split; [congruence |]. split; [congruence |]. split.
  - intros x Hx. destruct (F2 x Hx) as [Hb | ->]; [now apply F1 | now right].
  - eapply extends_trans; eassumption.
Qed.

#[local] Hint Resolve beside_refl beside_trans : world.

Lemma beside_emit request p e :
  spares request e -> respects (beside request p) (emit e).
Proof.
  intros He w. cbn [emit snd].
  repeat (split; [reflexivity |]). split; [intros x Hx; now left |].
  eapply extends_intro; [reflexivity | now repeat constructor].
Qed.

Lemma beside_reuse request p flags :
  p <> request -> respects (beside request p) (request_reuse p flags).
Proof.
  intros Hne w. unfold request_reuse. cbn [bind emit modify fst snd].
  destruct (transition _ p _);
    (repeat (split; [reflexivity |]); split; [intros x Hx; now left |];
     eapply extends_intro; [reflexivity | now repeat constructor]).
Qed.

Lemma beside_queueRequest request p :
  p <> request -> respects (beside request p) (camera_queueRequest p).
Proof.
  intros Hne w. unfold camera_queueRequest.
  destruct (if running w then _ else _); cbn [snd];
    (repeat (split; [reflexivity |]); split;
     [ intros x Hx; cbn in Hx; rewrite ?elem_of_app, ?list_elem_of_singleton in Hx;
       tauto
     | eapply extends_intro; [reflexivity | now repeat constructor] ]).
Qed.

(** The handler run for [p] makes no call on another request. *)
Lemma processRequest_beside request p :
  p <> request -> respects (beside request p) (processRequest p).
Proof.
  intros Hne.
  unfold processRequest, cout, request_metadata, request_buffers, buffer_metadata.
  respects_with
    ltac:(first [ apply beside_emit; first [exact I | exact Hne]
                | apply beside_reuse; exact Hne
                | apply beside_queueRequest; exact Hne ]).
Qed.

Lemma requeued_later request done w w1 w' :
  extends (spares request) w w1 -> allocated w1 = allocated w ->
  requeued request done w1 w' -> requeued request done w w'.
Proof.
  intros (t1 & Ht1 & Hs1) Ha (Hh & Hal & Hq & Hc & t & w0 & Hs & Ht).
  split; [exact Hh |]. split; [congruence |]. split; [exact Hq |].
  split; [exact Hc |].
  exists (t1 ++ t), w0. split; [now apply Forall_app |].
  rewrite Ht, Ht1, <- !app_assoc. reflexivity.
Qed.

(** A completed request that waits behind [n] deferred calls is handled
    at the turn after the next [n] turns, whatever the device does in
    between, and is then queued again. *)
Lemma awaited_turn (request : RequestPtr) (done : Request) :
  status done = Completed ->
  forall between w n,
    awaiting request done n w ->
    unstopped between = true -> turns between = n ->
    requeued request done w (snd (loop_run (between ++ [Dispatch]) w)).
Proof.
  intros Hst.
  assert (Hvoid : forall w, heap w !! request = Some done ->
            forall r0, heap w !! request = Some r0 -> status r0 <> Queued).
  { intros w Hr r0 Hr0. pose proof (eq_trans (eq_sym Hr) Hr0) as E.
    injection E as <-. rewrite Hst. discriminate. }
  induction between as [|ev between IH]; intros w n Haw Hun Hturns.
  - destruct Haw as (Hr & Hrun & Hnf & pre & post & Hcalls & Hlen & Hpre & Hpost).
    cbn in Hturns. rewrite <- Hturns in Hlen. clear Hturns.
    destruct pre as [|p pre]; [| discriminate Hlen].
    cbn [app] in Hcalls.
    assert (Hlt : (request < length (heap w))%nat)
      by (eapply lookup_lt_Some; eassumption).
    cbn [app loop_run bind]. unfold loop_dispatch. rewrite Hcalls.
    rewrite (processRequest_completed (set_calls post w) request done Hr Hst Hrun).
    cbn [value fst snd]. unfold requeued.
    cbn [heap allocated in_flight calls trace
         set_trace set_in_flight set_heap set_calls].
    split; [now apply list_lookup_insert_eq |]. split; [reflexivity |].
    split; [exists (in_flight w); split; [reflexivity | exact Hnf] |].
    split; [exact Hpost |].
    exists [], (set_calls post w). split; [constructor |].
    unfold printed. cbn [app frames set_calls]. rewrite <- !app_assoc. reflexivity.
  - destruct Haw as (Hr & Hrun & Hnf & pre & post & Hcalls & Hlen & Hpre & Hpost).
    destruct ev as [q md' fm' | q | | code].
    + cbn [unstopped turns] in Hun, Hturns. cbn [app loop_run bind].
      destruct (decide (q = request)) as [-> | Hne].
      { rewrite (device_complete_void w request md' fm' (Hvoid w Hr)).
        cbn [fst snd value]. apply (IH w n); [| exact Hun | exact Hturns].
        split; [exact Hr |]. split; [exact Hrun |]. split; [exact Hnf |].
        exists pre, post. repeat split; assumption. }
      destruct (queued_or_not w q) as [(r0 & Hr0 & Hst0) | Hv].
      * destruct (completion_step w q r0 md' fm' Hr0 Hst0) as [Hw Hb].
        rewrite Hb, Hw.
        match goal with |- requeued _ _ _ (snd (loop_run _ ?w1)) =>
          apply (requeued_later request done w w1)
        end.
        -- eapply extends_intro; [reflexivity |].
           constructor; [exact Hne |]. constructor; [exact Hne |]. constructor.
        -- reflexivity.
        -- apply (IH _ n); [| exact Hun | exact Hturns].
           cbn [heap running in_flight calls
                set_trace set_calls set_frames set_in_flight set_heap].
           split; [etrans; [apply list_lookup_insert_ne; exact Hne | exact Hr] |].
           split; [exact Hrun |].
           split; [intros Hx; apply list_elem_of_filter in Hx as [_ Hx]; now apply Hnf |].
           exists pre, (post ++ [q]). split; [rewrite Hcalls, <- app_assoc; reflexivity |].
           split; [exact Hlen |]. split; [exact Hpre |].
           rewrite elem_of_app, list_elem_of_singleton.
           intros [Hx | Hx]; [now apply Hpost | now apply Hne].
      * rewrite (device_complete_void w q md' fm' Hv).
        cbn [fst snd value]. apply (IH w n); [| exact Hun | exact Hturns].
        split; [exact Hr |]. split; [exact Hrun |]. split; [exact Hnf |].
        exists pre, post. repeat split; assumption.
    + cbn [unstopped turns] in Hun, Hturns. cbn [app loop_run bind].
      destruct (decide (q = request)) as [-> | Hne].
      { rewrite (device_cancel_void w request (Hvoid w Hr)).
        cbn [fst snd value]. apply (IH w n); [| exact Hun | exact Hturns].
        split; [exact Hr |]. split; [exact Hrun |]. split; [exact Hnf |].
        exists pre, post. repeat split; assumption. }
      destruct (queued_or_not w q) as [(r0 & Hr0 & Hst0) | Hv].
      * destruct (cancellation_step w q r0 Hr0 Hst0) as [Hw Hb].
        rewrite Hb, Hw.
        match goal with |- requeued _ _ _ (snd (loop_run _ ?w1)) =>
          apply (requeued_later request done w w1)
        end.
        -- eapply extends_intro; [reflexivity |].
           constructor; [exact Hne |]. constructor.
        -- reflexivity.
        -- apply (IH _ n); [| exact Hun | exact Hturns].
           cbn [heap running in_flight calls
                set_trace set_calls set_frames set_in_flight set_heap].
           split; [etrans; [apply list_lookup_insert_ne; exact Hne | exact Hr] |].
           split; [exact Hrun |].
           split; [intros Hx; apply list_elem_of_filter in Hx as [_ Hx]; now apply Hnf |].
           exists pre, post. repeat split; assumption.
      * rewrite (device_cancel_void w q Hv).
        cbn [fst snd value]. apply (IH w n); [| exact Hun | exact Hturns].
        split; [exact Hr |]. split; [exact Hrun |]. split; [exact Hnf |].
        exists pre, post. repeat split; assumption.
    + cbn [unstopped turns] in Hun, Hturns. rewrite <- Hturns in Hlen. clear Hturns.
      destruct pre as [|p pre]; [discriminate Hlen |].
      cbn [app] in Hcalls. injection Hlen as Hlen.
      apply not_elem_of_cons in Hpre as [Hne Hpre].
      cbn [app loop_run bind]. unfold loop_dispatch. rewrite Hcalls.
      set (w0 := set_calls (pre ++ request :: post) w).
      destruct (processRequest_beside request p (not_eq_sym Hne) w0)
        as (Brun & Bcalls & Balloc & Bfl & Bext).
      destruct (processRequest_apart p w0) as [He _].
      apply (requeued_later request done w (snd (processRequest p w0)));
        [exact Bext | exact Balloc |].
      apply (IH _ (turns between)); [| exact Hun | reflexivity].
      split; [rewrite (He request Hne); exact Hr |].
      split; [rewrite Brun; exact Hrun |].
      split; [intros Hx; destruct (Bfl _ Hx) as [Hx' | Hx'];
              [now apply Hnf | now apply Hne] |].
      exists pre, post. split; [rewrite Bcalls; reflexivity |].
      split; [exact Hlen |]. split; assumption.
    + cbn in Hun. discriminate Hun.
Qed.

(** C4: a request in flight that the device completes is handled when
    its turn comes and is then back in flight with the buffers it had,
    whatever calls are already deferred when the completion arrives and
    whatever the device completes or cancels until then.  Between the
    notification and its handler no call is made on the request; the
    handler prints the request's metadata and a line for each of its
    buffers, reuses the request with [ReuseBuffers] and queues the same
    request again, which the camera accepts.  The request ends queued,
    with its buffers and without metadata (as it started, if it had
    none), once in the camera's queue and not deferred; no request gains
    or loses a buffer, and the allocator's buffers are untouched.  (A
    queued request is not among the deferred calls when the requests are
    in cycle; this is all that is asked of the calls already deferred.) *)
Theorem completed_request_cycle (w : World) (request : RequestPtr) (r : Request)
    (md : MetadataList) (fm : FrameMetadata) (between : list LoopEvent) :
  heap w !! request = Some r -> status r = Queued -> running w = true ->
  request ∉ calls w ->
  unstopped between = true -> turns between = length (calls w) ->
  let done := {| status := Completed; buffers := buffers r; metadata := md |} in
  let w' := snd (loop_run (DeviceCompletes request md fm :: between ++ [Dispatch]) w) in
  heap w' !! request
  = Some {| status := Queued; buffers := buffers r; metadata := [] |} /\
  (metadata r = [] -> heap w' !! request = Some r) /\
  keeps_buffers w w' /\
  allocated w' = allocated w /\
  (exists q, in_flight w' = q ++ [request] /\ (request ∉ q)) /\
  (request ∉ calls w') /\
  exists t w0,
    Forall (spares request) t /\
    trace w'
    = trace w ++
      [SlotRequestComplete request Completed; LoopCallLater request] ++ t ++
      printed w0 request done ++
      [RequestReuse request ReuseBuffers; CameraQueueRequest request 0].
Proof.
  intros Hr Hst Hrun Hnc Hun Hturns. cbv zeta.
  set (done := {| status := Completed; buffers := buffers r; metadata := md |}).
  assert (Hlt : (request < length (heap w))%nat)
    by (eapply lookup_lt_Some; eassumption).
  pose proof (keeps_buffers_loop_run
                (DeviceCompletes request md fm :: between ++ [Dispatch]) w) as Hkb.
  destruct (completion_step w request r md fm Hr Hst) as [Hw Hb].
  revert Hkb. cbn [loop_run bind]. rewrite Hb, Hw.
  match goal with |- context [loop_run (between ++ [Dispatch]) ?w0] =>
    set (w1 := w0)
  end.
  intros Hkb.
  assert (Haw : awaiting request done (length (calls w)) w1).
  { subst w1.
    cbn [heap running in_flight calls
         set_trace set_calls set_frames set_in_flight set_heap].
    split; [now apply list_lookup_insert_eq |]. split; [exact Hrun |].
    split; [intros Hx; apply list_elem_of_filter in Hx as [Hx _]; now apply Hx |].
    exists (calls w), []. split; [reflexivity |]. split; [reflexivity |].
    split; [exact Hnc | apply not_elem_of_nil]. }
  destruct (awaited_turn request done eq_refl between w1 _ Haw Hun Hturns)
    as (Hh & Hal & Hq & Hc & t & w0 & Hs & Ht).
  split; [exact Hh |]. split; [| split; [exact Hkb |]].
  - intros Hmd. etrans; [exact Hh |]. f_equal.
    destruct r as [st bufs m]. cbn in *. now subst.
  - split; [exact Hal |]. split; [exact Hq |]. split; [exact Hc |].
    exists t, w0. split; [exact Hs |].
    rewrite Ht. subst w1. cbn [trace set_trace]. rewrite <- !app_assoc. reflexivity.
Qed.

Lemma completed_request_cycle_witness :
  let w := snd (loop_run [DeviceCompletes 1%nat [(1%nat, "v")] frame]
                  world_four_in_flight) in
  let between := [DeviceCompletes 3%nat [] frame; DeviceCancels 2%nat; Dispatch] in
  let r := {| status := Queued; buffers := [(0%nat, 10%nat)]; metadata := [] |} in
  let done := {| status := Completed; buffers := [(0%nat, 10%nat)];
                 metadata := [(2%nat, "x")] |} in
  let w' := snd (loop_run (DeviceCompletes 0%nat [(2%nat, "x")] frame ::
                           between ++ [Dispatch]) w) in
  calls w = [1%nat] /\
  heap w' !! 0%nat = Some r /\
  keeps_buffers w w' /\
  allocated w' = allocated w /\
  (exists q, in_flight w' = q ++ [0%nat] /\ (0%nat ∉ q)) /\
  (0%nat ∉ calls w') /\
  exists t w0,
    Forall (spares 0%nat) t /\
    trace w'
    = trace w ++
      [SlotRequestComplete 0%nat Completed; LoopCallLater 0%nat] ++ t ++
      printed w0 0%nat done ++
      [RequestReuse 0%nat ReuseBuffers; CameraQueueRequest 0%nat 0].
Proof.
  intros w between r done w'.
  assert (Hnc : 0%nat ∉ calls w).
  { change (0%nat ∉ [1%nat]).
    apply not_elem_of_cons. split; [discriminate | apply not_elem_of_nil]. }
  destruct (completed_request_cycle w 0%nat r [(2%nat, "x")] frame between
              eq_refl eq_refl eq_refl Hnc eq_refl eq_refl)
    as (_ & Hsame & Hkb & Hal & Hq & Hc & Ht).
  split; [reflexivity |]. split; [exact (Hsame eq_refl) |].
  split; [exact Hkb |]. split; [exact Hal |]. split; [exact Hq |].
  split; [exact Hc | exact Ht].
Defined.
